(** * propp: the [Property] wrapper of include/propp/Property.hpp

    A shallow embedding of the class template
    [propp::Property<T, ReadOnly, ThreadSafe, GetterType, SetterType>] and of
    the [Person] class of examples/example.cpp, followed by the properties of
    the natural-language specification that were checked against it.

    Modelling choices, all taken from the source:
    - the four non-type template parameters are a [Config] record; the member
      templates guarded by [std::enable_if] are described by [compiles];
    - a [std::function] is either empty or holds a callable, hence an
      [option]; [NoGetter] and [NoSetter] are one-constructor structs;
    - a callback is a closure over the object that owns the property; what it
      does to that property is a tree of calls to the property's public
      members ([Prog]), which the dispatcher runs against the property;
    - a getter that returns [T&] is read through at once: the model returns
      the referenced value;
    - the operators are member templates over the type [F] of their operand
      and convert it with [static_cast<T>]: the conversion is the method of
      the class [StaticCast], the identity when the operand is of type [T];
    - [std::recursive_mutex] is its recursion count for the calling thread,
      and every lock, unlock, raw access and guard is appended to an event
      log, so that what happens while a lock or a flag is held can be read
      off the log;
    - the dispatcher re-enters itself through the callbacks, so it is defined
      by recursion on a bound [fuel] on the nesting of callbacks; [invoke_total]
      shows that three levels are always enough. *)

From Stdlib Require Import ZArith List String Bool Lia.
Import ListNotations.

Set Implicit Arguments.

(** ** Template parameters *)

(** [GetterTypeRef<T>] is [std::function<T&()>], [GetterTypeValue<T>] is
    [std::function<T()>]. *)
Inductive GetterKind : Type :=
| GetterTypeRef
| GetterTypeValue
| NoGetter.

(** [SetterTypeCRef<T>] is [std::function<void(const T&)>],
    [SetterTypeValue<T>] is [std::function<void(T)>]. *)
Inductive SetterKind : Type :=
| SetterTypeCRef
| SetterTypeValue
| NoSetter.

(** [struct NoGetter {};] and [struct NoSetter {};]: the values of the empty
    structs. *)
Inductive NoGetterStruct : Type := NoGetter_value.
Inductive NoSetterStruct : Type := NoSetter_value.

Record Config : Type := mkConfig {
  ReadOnly : bool;
  ThreadSafe : bool;
  GetterType : GetterKind;
  SetterType : SetterKind
}.

(** [std::is_same_v<GetterType, NoGetter>] and its setter twin. *)
Definition is_NoGetter (g : GetterKind) : bool :=
  match g with NoGetter => true | _ => false end.

Definition is_NoSetter (s : SetterKind) : bool :=
  match s with NoSetter => true | _ => false end.

(** The type aliases at the end of Property.hpp, with the default getter and
    setter types of each alias. *)
Definition PropertyRW : Config := mkConfig false false NoGetter NoSetter.
Definition PropertyRWG : Config := mkConfig false false GetterTypeValue NoSetter.
Definition PropertyRWS : Config := mkConfig false false NoGetter SetterTypeValue.
Definition PropertyRWGS : Config := mkConfig false false GetterTypeValue SetterTypeValue.
Definition PropertyRWMT : Config := mkConfig false true NoGetter NoSetter.
Definition PropertyRWGMT : Config := mkConfig false true GetterTypeValue NoSetter.
Definition PropertyRWSMT : Config := mkConfig false true NoGetter SetterTypeValue.
Definition PropertyRWGSMT : Config := mkConfig false true GetterTypeValue SetterTypeValue.
Definition PropertyRO : Config := mkConfig true false NoGetter NoSetter.
Definition PropertyROG : Config := mkConfig true false GetterTypeValue NoSetter.
Definition PropertyROS : Config := mkConfig true false NoGetter SetterTypeValue.
Definition PropertyROGS : Config := mkConfig true false GetterTypeValue SetterTypeValue.
Definition PropertyROMT : Config := mkConfig true true NoGetter NoSetter.
Definition PropertyROGMT : Config := mkConfig true true GetterTypeValue NoSetter.
Definition PropertyROSMT : Config := mkConfig true true NoGetter SetterTypeValue.
Definition PropertyROGSMT : Config := mkConfig true true GetterTypeValue SetterTypeValue.

(** ** The operators of the wrapped type

    [Property] forwards every operator to the operator of [T] with the same
    name; [T] is a template parameter, so its operators are an interface.
    [inc] and [dec] are what [++v], [v++], [--v] and [v--] do to [v]. *)
Class Operators (T : Type) : Type := {
  add : T -> T -> T;
  sub : T -> T -> T;
  mul : T -> T -> T;
  div : T -> T -> T;
  rem : T -> T -> T;
  band : T -> T -> T;
  bor : T -> T -> T;
  bxor : T -> T -> T;
  shl : T -> T -> T;
  shr : T -> T -> T;
  inc : T -> T;
  dec : T -> T
}.

(** The ten compound assignments of Property.hpp, lines 218-240. *)
Inductive CompoundOp : Type :=
| AddAssign | SubAssign | MulAssign | DivAssign | ModAssign
| AndAssign | OrAssign | XorAssign | ShlAssign | ShrAssign.

Definition apply_op {T : Type} `{Operators T} (o : CompoundOp) : T -> T -> T :=
  match o with
  | AddAssign => add
  | SubAssign => sub
  | MulAssign => mul
  | DivAssign => div
  | ModAssign => rem
  | AndAssign => band
  | OrAssign => bor
  | XorAssign => bxor
  | ShlAssign => shl
  | ShrAssign => shr
  end.

(** ** Callbacks and client code

    What a piece of code does to one property: it returns, or calls one of
    the property's public members and goes on with the result.
    - [Read]: [operator T()], [operator()()], [operator*()], all [Get()];
    - [ReadRaw]: [GetRaw()];
    - [Assign]: [operator=], which is [Set(static_cast<T>(value))];
    - [Compound]: a compound assignment, an increment or a decrement, all
      [ApplyOperation(operation)]; [f] is what [operation] does to the local
      copy it receives by reference. *)
Inductive Prog (T R : Type) : Type :=
| Ret (r : R)
| Read (k : T -> Prog T R)
| ReadRaw (k : T -> Prog T R)
| Assign (v : T) (k : Prog T R)
| Compound (f : T -> T) (k : Prog T R).

Arguments Ret {T R} r.
Arguments Read {T R} k.
Arguments ReadRaw {T R} k.
Arguments Assign {T R} v k.
Arguments Compound {T R} f k.

(** [Getter] and [Setter], the member types [using Getter = GetterType] and
    [using Setter = SetterType]. *)
Definition Getter (T : Type) (g : GetterKind) : Type :=
  match g with
  | NoGetter => NoGetterStruct
  | _ => option (Prog T T)
  end.

Definition Setter (T : Type) (s : SetterKind) : Type :=
  match s with
  | NoSetter => NoSetterStruct
  | _ => option (T -> Prog T unit)
  end.

(** The data members, lines 438-444. *)
Record Property (T : Type) (cfg : Config) : Type := mkProperty {
  m_Value : T;
  m_Mutex : nat;
  m_Getter : Getter T (GetterType cfg);
  m_Setter : Setter T (SetterType cfg);
  m_SetterActive : bool;
  m_GetterActive : bool
}.

(** What the event log records. *)
Inductive Event (T : Type) : Type :=
| EvLock
| EvUnlock
| EvLoad (v : T)
| EvStore (v : T)
| EvGetterEnter
| EvGetterLeave
| EvSetterEnter (v : T)
| EvSetterLeave.

Arguments EvLock {T}.
Arguments EvUnlock {T}.
Arguments EvLoad {T} v.
Arguments EvStore {T} v.
Arguments EvGetterEnter {T}.
Arguments EvGetterLeave {T}.
Arguments EvSetterEnter {T} v.
Arguments EvSetterLeave {T}.

(** ** The dispatcher *)

Section Dispatcher.

Context {T : Type} {cfg : Config}.

(** A member function either completes with a result, the new state of the
    property and the events it logged, or runs out of nesting bound. *)
Definition M (A : Type) : Type :=
  Property T cfg -> option (A * Property T cfg * list (Event T)).

Definition ret {A : Type} (a : A) : M A :=
  fun p => Some (a, p, []).

Definition bind {A B : Type} (m : M A) (f : A -> M B) : M B :=
  fun p =>
    match m p with
    | None => None
    | Some (a, p1, l1) =>
        match f a p1 with
        | None => None
        | Some (b, p2, l2) => Some (b, p2, l1 ++ l2)
        end
    end.

Local Notation "x <- m ;; k" := (bind m (fun x => k))
  (at level 61, m at next level, right associativity).
Local Notation "m ;; k" := (bind m (fun _ => k))
  (at level 61, right associativity).

(** Field updates. *)
Definition set_Value (v : T) (p : Property T cfg) : Property T cfg :=
  @mkProperty T cfg v (m_Mutex p) (m_Getter p) (m_Setter p)
    (m_SetterActive p) (m_GetterActive p).

Definition set_Mutex (n : nat) (p : Property T cfg) : Property T cfg :=
  @mkProperty T cfg (m_Value p) n (m_Getter p) (m_Setter p)
    (m_SetterActive p) (m_GetterActive p).

Definition set_Getter (g : Getter T (GetterType cfg)) (p : Property T cfg) : Property T cfg :=
  @mkProperty T cfg (m_Value p) (m_Mutex p) g (m_Setter p)
    (m_SetterActive p) (m_GetterActive p).

Definition set_Setter (s : Setter T (SetterType cfg)) (p : Property T cfg) : Property T cfg :=
  @mkProperty T cfg (m_Value p) (m_Mutex p) (m_Getter p) s
    (m_SetterActive p) (m_GetterActive p).

Definition set_SetterActive (b : bool) (p : Property T cfg) : Property T cfg :=
  @mkProperty T cfg (m_Value p) (m_Mutex p) (m_Getter p) (m_Setter p)
    b (m_GetterActive p).

Definition set_GetterActive (b : bool) (p : Property T cfg) : Property T cfg :=
  @mkProperty T cfg (m_Value p) (m_Mutex p) (m_Getter p) (m_Setter p)
    (m_SetterActive p) b.

(** [std::lock_guard<std::recursive_mutex> lock(m_Mutex);] locks in its
    constructor and unlocks in its destructor. *)
Definition lock : M unit :=
  fun p => Some (tt, set_Mutex (S (m_Mutex p)) p, [EvLock]).

Definition unlock : M unit :=
  fun p => Some (tt, set_Mutex (pred (m_Mutex p)) p, [EvUnlock]).

(** Every member function starts with
    [if constexpr (ThreadSafe) { std::lock_guard<std::recursive_mutex> lock(m_Mutex); }]:
    the guard is a local of the block of the [if constexpr], so it is
    destroyed at the closing brace of that block. *)
Definition lock_guard_block : M unit :=
  if ThreadSafe cfg then (lock ;; unlock) else ret tt.

(** [return m_Value;] and [m_Value = newValue;]. *)
Definition load : M T :=
  fun p => Some (m_Value p, p, [EvLoad (m_Value p)]).

Definition store (newValue : T) : M unit :=
  fun p => Some (tt, set_Value newValue p, [EvStore newValue]).

(** The test [if constexpr (!std::is_same_v<GetterType, NoGetter>)] followed
    by [m_Getter && ...]: the callable held by [m_Getter], when the slot
    exists and is not empty. *)
Definition getter_target (g : GetterKind) : Getter T g -> option (Prog T T) :=
  match g with
  | NoGetter => fun _ => None
  | GetterTypeRef => fun f => f
  | GetterTypeValue => fun f => f
  end.

Definition setter_target (s : SetterKind) : Setter T s -> option (T -> Prog T unit) :=
  match s with
  | NoSetter => fun _ => None
  | SetterTypeCRef => fun f => f
  | SetterTypeValue => fun f => f
  end.

Definition custom_getter (p : Property T cfg) : option (Prog T T) :=
  getter_target (GetterType cfg) (m_Getter p).

Definition custom_setter (p : Property T cfg) : option (T -> Prog T unit) :=
  setter_target (SetterType cfg) (m_Setter p).

(** [GetterGuard] and [SetterGuard], lines 413-436: the constructor sets the
    flag, the destructor clears it. *)
Definition GetterGuard_ctor : M unit :=
  fun p => Some (tt, set_GetterActive true p, [EvGetterEnter]).

Definition GetterGuard_dtor : M unit :=
  fun p => Some (tt, set_GetterActive false p, [EvGetterLeave]).

Definition SetterGuard_ctor (newValue : T) : M unit :=
  fun p => Some (tt, set_SetterActive true p, [EvSetterEnter newValue]).

Definition SetterGuard_dtor : M unit :=
  fun p => Some (tt, set_SetterActive false p, [EvSetterLeave]).

Section Members.

(** How the body of a callback is run against this property. *)
Variable invoke : forall R : Type, Prog T R -> M R.

(** [GetST], lines 347-397 (the four overloads have the same body). *)
Definition GetST : M T :=
  fun p =>
    match custom_getter p with
    | Some getter =>
        if negb (m_GetterActive p) then
          (GetterGuard_ctor ;;
           v <- invoke getter ;;
           GetterGuard_dtor ;;
           ret v) p
        else load p
    | None => load p
    end.

(** [SetST], lines 399-409. *)
Definition SetST (newValue : T) : M unit :=
  fun p =>
    match custom_setter p with
    | Some setter =>
        if negb (m_SetterActive p) then
          (SetterGuard_ctor newValue ;;
           invoke (setter newValue) ;;
           SetterGuard_dtor) p
        else store newValue p
    | None => store newValue p
    end.

(** [Get], lines 289-327, and [Set], lines 329-334. *)
Definition Get : M T :=
  lock_guard_block ;; GetST.

Definition Set_ (newValue : T) : M unit :=
  lock_guard_block ;; SetST newValue.

(** [GetRaw], lines 150-189. *)
Definition GetRaw : M T :=
  lock_guard_block ;; load.

(** [ApplyOperation], lines 336-345. *)
Definition ApplyOperation (operation : T -> T) : M unit :=
  lock_guard_block ;;
  value <- GetST ;;
  SetST (operation value).

(** A piece of code, run call by call. *)
Fixpoint exec {R : Type} (c : Prog T R) : M R :=
  match c with
  | Ret r => ret r
  | Read k => v <- Get ;; exec (k v)
  | ReadRaw k => v <- GetRaw ;; exec (k v)
  | Assign v k => Set_ v ;; exec k
  | Compound f k => ApplyOperation f ;; exec k
  end.

End Members.

(** Callbacks nested at most [fuel] deep. *)
Fixpoint invoke (fuel : nat) (R : Type) (c : Prog T R) : M R :=
  match fuel with
  | O => fun _ => None
  | S n => exec (invoke n) c
  end.

(** [SetGetter], lines 199-206, and [SetSetter], lines 208-216. *)
Definition assign_Getter (g : GetterKind) :
  Getter T g -> Getter T g -> Getter T g :=
  match g with
  | NoGetter => fun _ customGetter => customGetter
  | GetterTypeRef => fun current _ => current
  | GetterTypeValue => fun current _ => current
  end.

Definition assign_Setter (s : SetterKind) :
  Setter T s -> Setter T s -> Setter T s :=
  match s with
  | NoSetter => fun _ customSetter => customSetter
  | SetterTypeCRef => fun current _ => current
  | SetterTypeValue => fun current _ => current
  end.

Definition SetGetter (customGetter : Getter T (GetterType cfg)) : M unit :=
  lock_guard_block ;;
  (fun p =>
     ret tt (set_Getter (assign_Getter (GetterType cfg) (m_Getter p) customGetter) p)).

Definition SetSetter (customSetter : Setter T (SetterType cfg)) : M unit :=
  lock_guard_block ;;
  (fun p =>
     ret tt (set_Setter (assign_Setter (SetterType cfg) (m_Setter p) customSetter) p)).

End Dispatcher.

Arguments M : clear implicits.

(** ** Constructors and operators *)

(** [static_cast<T>(value)] for an operand of type [F]: every operator
    template converts its operand before it uses it. *)
Class StaticCast (F T : Type) : Type :=
  static_cast : F -> T.

(** An operand that is of type [T] already is copied. *)
#[export] Instance static_cast_same (T : Type) : StaticCast T T :=
  fun value => value.

Section Interface.

Context {T : Type} {cfg : Config}.

(** A default-constructed [std::function] is empty. *)
Definition default_Getter (g : GetterKind) : Getter T g :=
  match g with
  | NoGetter => NoGetter_value
  | GetterTypeRef => None
  | GetterTypeValue => None
  end.

Definition default_Setter (s : SetterKind) : Setter T s :=
  match s with
  | NoSetter => NoSetter_value
  | SetterTypeCRef => None
  | SetterTypeValue => None
  end.

(** The four constructors, lines 40-83. The first is enabled when there is
    neither a getter nor a setter slot, the second when there is no setter
    slot, the third when there is no getter slot. *)
Definition Property_value (value : T) : Property T cfg :=
  @mkProperty T cfg value 0 (default_Getter _) (default_Setter _) false false.

Definition Property_getter (value : T) (getter : Getter T (GetterType cfg)) :
  Property T cfg :=
  @mkProperty T cfg value 0 getter (default_Setter _) false false.

Definition Property_setter (value : T) (setter : Setter T (SetterType cfg)) :
  Property T cfg :=
  @mkProperty T cfg value 0 (default_Getter _) setter false false.

Definition Property_getter_setter (value : T)
  (getter : Getter T (GetterType cfg)) (setter : Setter T (SetterType cfg)) :
  Property T cfg :=
  @mkProperty T cfg value 0 getter setter false false.

(** Which calls the [std::enable_if] guards let through: [operator=]
    (line 192) needs [!ReadOnly]; the conversion, [GetRaw] and the operators
    of lines 218-248 carry no guard. *)
Fixpoint compiles {R : Type} (c : Prog T R) : Prop :=
  match c with
  | Ret _ => True
  | Read k => forall v, compiles (k v)
  | ReadRaw k => forall v, compiles (k v)
  | Assign _ k => ReadOnly cfg = false /\ compiles k
  | Compound _ k => compiles k
  end.

Context `{Operators T}.

Variable fuel : nat.

(** [operator=], lines 192-196: [Set(static_cast<T>(value));]. *)
Definition operator_assign {F : Type} {cast : StaticCast F T} (value : F) :
  M T cfg unit :=
  Set_ (invoke fuel) (static_cast value).

(** [operator T()], line 91. *)
Definition operator_T : M T cfg T :=
  Get (invoke fuel).

(** [operator+=] to [operator>>=], lines 218-240: the lambda applies the
    operator of [T] to the local copy and to [static_cast<T>(value)]. *)
Definition operator_compound {F : Type} {cast : StaticCast F T}
  (o : CompoundOp) (value : F) : M T cfg unit :=
  ApplyOperation (invoke fuel) (fun v => apply_op o v (static_cast value)).

(** A lambda that returns a value, stored in a [std::function<void(T&)>]:
    the returned value is dropped, the effect on the argument is kept. *)
Definition as_void {A : Type} (lambda : T -> T * A) : T -> T :=
  fun v => fst (lambda v).

(** Prefix [++] and [--], lines 243-244: [[&](T& v) { ++v; }]. *)
Definition operator_pre_inc : M T cfg unit :=
  ApplyOperation (invoke fuel) (as_void (fun v => (inc v, tt))).

Definition operator_pre_dec : M T cfg unit :=
  ApplyOperation (invoke fuel) (as_void (fun v => (dec v, tt))).

(** Postfix [++] and [--], lines 247-248:
    [[&](T& v) { T old = v; v++; return old; }]. *)
Definition operator_post_inc : M T cfg unit :=
  ApplyOperation (invoke fuel) (as_void (fun v => let old := v in (inc v, old))).

Definition operator_post_dec : M T cfg unit :=
  ApplyOperation (invoke fuel) (as_void (fun v => let old := v in (dec v, old))).


End Interface.

(** ** Instances of the wrapped type *)

(** [int] is a 32-bit two's complement integer. *)
Definition int_wrap (z : Z) : Z :=
  ((z + 2 ^ 31) mod 2 ^ 32 - 2 ^ 31)%Z.

(** [static_cast<int>(value)] for an operand of an integer type that may be
    wider than [int] ([long long], [unsigned]): the value modulo [2^32],
    hence the value itself when it is an [int]. The operand is given by its
    mathematical value. *)
Definition int_of_integer : StaticCast Z Z := int_wrap.

#[export] Instance int_Operators : Operators Z := {
  add x y := int_wrap (x + y);
  sub x y := int_wrap (x - y);
  mul x y := int_wrap (x * y);
  div x y := int_wrap (Z.quot x y);
  rem x y := Z.rem x y;
  band x y := Z.land x y;
  bor x y := Z.lor x y;
  bxor x y := Z.lxor x y;
  shl x y := int_wrap (Z.shiftl x y);
  shr x y := Z.shiftr x y;
  inc x := int_wrap (x + 1);
  dec x := int_wrap (x - 1)
}.

(** [std::clamp(v, lo, hi)]. *)
Definition clamp (v lo hi : Z) : Z :=
  if (v <? lo)%Z then lo else if (hi <? v)%Z then hi else v.

(** ** examples/example.cpp *)

Module Person.

(** [static std::string predefinedCountry = " USA";] *)
Definition predefinedCountry : string := " USA".

(** [void SetAge(int value) { Age = std::clamp(value, 0, 150); }] *)
Definition SetAge (value : Z) : Prog Z unit :=
  Assign (clamp value 0 150) (Ret tt).

(** [std::string GetAddress() { return Address() + predefinedCountry; }] *)
Definition GetAddress : Prog string string :=
  Read (fun address => Ret (address ++ predefinedCountry)%string).

(** The members [Name], [Age] and [Address] as the constructors of [Person]
    build them from an initial value. *)
Definition Name (name : string) : Property string PropertyRO :=
  @Property_value string PropertyRO name.

Definition Age (value : Z) : Property Z PropertyRWSMT :=
  @Property_setter Z PropertyRWSMT value (Some SetAge).

Definition Address (address : string) : Property string PropertyROG :=
  @Property_getter string PropertyROG address (Some GetAddress).

End Person.

(** ** What is read off a state and off a log *)

Section Observations.

Context {T : Type} {cfg : Config}.

(** A [GetterGuard] (resp. [SetterGuard]) is built or destroyed. *)
Definition is_getter_guard (e : Event T) : bool :=
  match e with
  | EvGetterEnter | EvGetterLeave => true
  | _ => false
  end.

Definition is_setter_guard (e : Event T) : bool :=
  match e with
  | EvSetterEnter _ | EvSetterLeave => true
  | _ => false
  end.

Definition no_getter_guard (l : list (Event T)) : bool :=
  forallb (fun e => negb (is_getter_guard e)) l.

Definition no_setter_guard (l : list (Event T)) : bool :=
  forallb (fun e => negb (is_setter_guard e)) l.

(** How many times the custom getter (resp. setter) is entered. *)
Definition getter_calls (l : list (Event T)) : nat :=
  List.length (filter (fun e => match e with EvGetterEnter => true | _ => false end) l).

Definition setter_calls (l : list (Event T)) : nat :=
  List.length (filter (fun e => match e with EvSetterEnter _ => true | _ => false end) l).

(** Every access to [m_Value] and every callback of the log happens while
    the mutex is held; [depth] is the recursion count before the log. *)
Fixpoint under_lock (depth : nat) (l : list (Event T)) : bool :=
  match l with
  | [] => true
  | EvLock :: l' => under_lock (S depth) l'
  | EvUnlock :: l' => under_lock (pred depth) l'
  | _ :: l' => negb (Nat.eqb depth 0) && under_lock depth l'
  end.

(** What [lock_guard_block] logs. *)
Definition lock_log : list (Event T) :=
  if ThreadSafe cfg then [EvLock; EvUnlock] else [].

(** The log without the mutex: the accesses to [m_Value] and the guards, in
    order. *)
Definition is_lock_event (e : Event T) : bool :=
  match e with
  | EvLock | EvUnlock => true
  | _ => false
  end.

Definition accesses (l : list (Event T)) : list (Event T) :=
  filter (fun e => negb (is_lock_event e)) l.

(** A completed call without its log. *)
Definition outcome {A : Type}
  (r : option (A * Property T cfg * list (Event T))) : option (A * Property T cfg) :=
  match r with
  | Some (a, p, _) => Some (a, p)
  | None => None
  end.

(** The callbacks that a call may still enter: one for each callable slot
    whose flag is clear. *)
Definition pending (p : Property T cfg) : nat :=
  (match custom_getter p with
   | Some _ => if m_GetterActive p then 0 else 1
   | None => 0
   end) +
  (match custom_setter p with
   | Some _ => if m_SetterActive p then 0 else 1
   | None => 0
   end).

(** Everything but the stored value is the same. *)
Definition frame (p p' : Property T cfg) : Prop :=
  m_Mutex p' = m_Mutex p /\
  m_Getter p' = m_Getter p /\
  m_Setter p' = m_Setter p /\
  m_SetterActive p' = m_SetterActive p /\
  m_GetterActive p' = m_GetterActive p.

(** No guard of a flag that is already set appears in the log. *)
Definition quiet (p : Property T cfg) (l : list (Event T)) : Prop :=
  (m_GetterActive p = true -> no_getter_guard l = true) /\
  (m_SetterActive p = true -> no_setter_guard l = true).

(** The call completes, gives the property back with its frame, and builds
    no guard of a flag that was set. *)
Definition completes {A : Type} (m : M T cfg A) (p : Property T cfg) : Prop :=
  exists r p' l, m p = Some (r, p', l) /\ frame p p' /\ quiet p l.

(** [m'] completes wherever [m] does, with the same result. *)
Definition extends {A : Type} (m m' : M T cfg A) : Prop :=
  forall p x, m p = Some x -> m' p = Some x.

End Observations.

(** ** The operators that only read *)

(** The comparison operators of the wrapped type. *)
Class Comparisons (T : Type) : Type := {
  eq_op : T -> T -> bool;
  ne_op : T -> T -> bool;
  lt_op : T -> T -> bool;
  le_op : T -> T -> bool;
  gt_op : T -> T -> bool;
  ge_op : T -> T -> bool
}.

(** The six comparisons of Property.hpp, lines 274-286. *)
Inductive Comparison : Type :=
| CmpEq | CmpNe | CmpLt | CmpLe | CmpGt | CmpGe.

Definition compare_op {T : Type} `{Comparisons T} (c : Comparison) : T -> T -> bool :=
  match c with
  | CmpEq => eq_op
  | CmpNe => ne_op
  | CmpLt => lt_op
  | CmpLe => le_op
  | CmpGt => gt_op
  | CmpGe => ge_op
  end.

#[export] Instance int_Comparisons : Comparisons Z := {
  eq_op x y := Z.eqb x y;
  ne_op x y := negb (Z.eqb x y);
  lt_op x y := Z.ltb x y;
  le_op x y := Z.leb x y;
  gt_op x y := Z.gtb x y;
  ge_op x y := Z.geb x y
}.

Section Readers.

Context {T : Type} {cfg : Config}.

Variable fuel : nat.

(** [operator+] to [operator>>], lines 250-272:
    [return Get() + static_cast<T>(value);] and so on; [o] names the operator
    of [T] by the compound assignment built on it. *)
Definition operator_binary `{Operators T} {F : Type} {cast : StaticCast F T}
  (o : CompoundOp) (value : F) : M T cfg T :=
  bind (Get (invoke fuel)) (fun v => ret (apply_op o v (static_cast value))).

(** [operator==] to [operator>=], lines 274-286:
    [return Get() == static_cast<T>(value);] and so on. *)
Definition operator_compare `{Comparisons T} {F : Type} {cast : StaticCast F T}
  (c : Comparison) (value : F) : M T cfg bool :=
  bind (Get (invoke fuel)) (fun v => ret (compare_op c v (static_cast value))).

End Readers.


(** Code that calls nothing but the conversion to [T] and [GetRaw]. *)
Fixpoint reads_only {T R : Type} (c : Prog T R) : Prop :=
  match c with
  | Ret _ => True
  | Read k => forall v, reads_only (k v)
  | ReadRaw k => forall v, reads_only (k v)
  | Assign _ _ => False
  | Compound _ _ => False
  end.

(** The log holds no store to [m_Value] and no setter guard. *)
Definition is_write {T : Type} (e : Event T) : bool :=
  match e with
  | EvStore _ | EvSetterEnter _ | EvSetterLeave => true
  | _ => false
  end.

Definition no_write {T : Type} (l : list (Event T)) : bool :=
  forallb (fun e => negb (is_write e)) l.

(** Every lock of the log is followed at once by its unlock: the mutex is
    free at every access and around every guard, and its recursion count
    never exceeds one; [held] says whether the mutex is held before the
    log. *)
Fixpoint lock_never_held {T : Type} (held : bool) (l : list (Event T)) : bool :=
  match l with
  | [] => negb held
  | EvLock :: l' => negb held && lock_never_held true l'
  | EvUnlock :: l' => held && lock_never_held false l'
  | _ :: l' => negb held && lock_never_held false l'
  end.

(** ** The class [Person] of examples/example.cpp *)

Module PersonClass.

Record t : Type := mk {
  Name : Property string PropertyRO;
  Age : Property Z PropertyRWSMT;
  Address : Property string PropertyROG
}.

(** [Person(const std::string& name)], lines 15-20. *)
Definition ctor (name : string) : t :=
  mk (Person.Name name) (Person.Age 0)
     (Person.Address "123 Main St Mega City MS 12345").

(** [Person(const Person& other)], lines 23-28: [other.Name()] and
    [other.Age()] are reads of the properties of [other],
    [other.Address.GetRaw()] is its stored address. The result is [other]
    after the three calls and the new object. *)
Definition copy_ctor (fuel : nat) (other : t) : option (t * t) :=
  match Get (invoke fuel) (Name other) with
  | Some (name, other_Name, _) =>
      match Get (invoke fuel) (Age other) with
      | Some (age, other_Age, _) =>
          match GetRaw (Address other) with
          | Some (address, other_Address, _) =>
              Some (mk other_Name other_Age other_Address,
                    mk (Person.Name name) (Person.Age age) (Person.Address address))
          | None => None
          end
      | None => None
      end
  | None => None
  end.

End PersonClass.

(** ** The dispatcher terminates and keeps the frame *)

Section Termination.

Context {T : Type} {cfg : Config}.

Implicit Types p : Property T cfg.

Lemma frame_refl p : frame p p.
Proof. repeat split. Qed.

Lemma frame_trans p1 p2 p3 : frame p1 p2 -> frame p2 p3 -> frame p1 p3.
Proof.
  unfold frame. intros (a1 & b1 & c1 & d1 & e1) (a2 & b2 & c2 & d2 & e2).
  repeat split; congruence.
Qed.

Lemma frame_pending p p' : frame p p' -> pending p' = pending p.
Proof.
  unfold frame, pending, custom_getter, custom_setter.
  intros (_ & -> & -> & -> & ->). reflexivity.
Qed.

Lemma no_getter_guard_app (l1 l2 : list (Event T)) :
  no_getter_guard (l1 ++ l2) = no_getter_guard l1 && no_getter_guard l2.
Proof. apply forallb_app. Qed.

Lemma no_setter_guard_app (l1 l2 : list (Event T)) :
  no_setter_guard (l1 ++ l2) = no_setter_guard l1 && no_setter_guard l2.
Proof. apply forallb_app. Qed.

Lemma quiet_app p p' l1 l2 :
  frame p p' -> quiet p l1 -> quiet p' l2 -> quiet p (l1 ++ l2).
Proof.
  intros (_ & _ & _ & Hs & Hg) [G1 S1] [G2 S2]. split; intro Hf.
  - rewrite no_getter_guard_app, G1, G2; auto. congruence.
  - rewrite no_setter_guard_app, S1, S2; auto. congruence.
Qed.

Lemma completes_ret {A : Type} (a : A) p : completes (ret a) p.
Proof.
  exists a, p, []. repeat split.
Qed.

Lemma completes_bind {A B : Type} (m : M T cfg A) (f : A -> M T cfg B) p :
  completes m p ->
  (forall a p1, frame p p1 -> completes (f a) p1) ->
  completes (bind m f) p.
Proof.
  intros (a & p1 & l1 & E1 & F1 & Q1) Hf.
  destruct (Hf a p1 F1) as (b & p2 & l2 & E2 & F2 & Q2).
  exists b, p2, (l1 ++ l2). unfold bind. rewrite E1, E2.
  split; [reflexivity|]. split.
  - eapply frame_trans; eassumption.
  - eapply quiet_app; eassumption.
Qed.

Lemma completes_lock_guard_block p : completes lock_guard_block p.
Proof.
  unfold lock_guard_block. destruct (ThreadSafe cfg).
  - exists tt, (set_Mutex (pred (S (m_Mutex p))) (set_Mutex (S (m_Mutex p)) p)),
      [EvLock; EvUnlock].
    repeat split.
  - apply completes_ret.
Qed.

Lemma completes_load p : completes load p.
Proof.
  exists (m_Value p), p, [EvLoad (m_Value p)]. repeat split.
Qed.

Lemma completes_store (v : T) p : completes (store v) p.
Proof.
  exists tt, (set_Value v p), [EvStore v]. repeat split.
Qed.

Section Step.

(** The callbacks run by [run] complete from every state that has fewer than
    [n] callbacks left to enter. *)
Variable n : nat.
Variable run : forall R : Type, Prog T R -> M T cfg R.
Hypothesis run_completes :
  forall (R : Type) (c : Prog T R) p, pending p < n -> completes (run c) p.

Lemma completes_GetST p : pending p <= n -> completes (GetST run) p.
Proof.
  intro Hp. unfold completes, GetST.
  destruct (custom_getter p) as [getter|] eqn:Eg; [|apply completes_load].
  destruct (m_GetterActive p) eqn:Ea; [apply completes_load|]. simpl.
  assert (Hp1 : pending (set_GetterActive true p) < n).
  { unfold pending in *. unfold custom_getter, custom_setter in *. simpl.
    rewrite Eg in *. rewrite Ea in Hp. lia. }
  destruct (@run_completes _ getter _ Hp1) as (v & p2 & l & E & F & Q).
  destruct F as (Fm & Fg & Fs & Fsa & Fga). destruct Q as [Qg Qs].
  simpl in Fm, Fg, Fs, Fsa, Fga, Qg, Qs.
  exists v, (set_GetterActive false p2), (EvGetterEnter :: l ++ [EvGetterLeave]).
  unfold bind, GetterGuard_ctor, GetterGuard_dtor, ret. rewrite E. simpl.
  split; [reflexivity|]. split.
  - repeat split; simpl; congruence.
  - split; intro Hf; [congruence|].
    simpl. rewrite no_setter_guard_app, Qs by assumption. reflexivity.
Qed.

Lemma completes_SetST (v : T) p : pending p <= n -> completes (SetST run v) p.
Proof.
  intro Hp. unfold completes, SetST.
  destruct (custom_setter p) as [setter|] eqn:Es; [|apply completes_store].
  destruct (m_SetterActive p) eqn:Ea; [apply completes_store|]. simpl.
  assert (Hp1 : pending (set_SetterActive true p) < n).
  { unfold pending in *. unfold custom_getter, custom_setter in *. simpl.
    rewrite Es in *. rewrite Ea in Hp. lia. }
  destruct (@run_completes _ (setter v) _ Hp1) as ([] & p2 & l & E & F & Q).
  destruct F as (Fm & Fg & Fs & Fsa & Fga). destruct Q as [Qg Qs].
  simpl in Fm, Fg, Fs, Fsa, Fga, Qg, Qs.
  exists tt, (set_SetterActive false p2), (EvSetterEnter v :: l ++ [EvSetterLeave]).
  unfold bind, SetterGuard_ctor, SetterGuard_dtor. rewrite E. simpl.
  split; [reflexivity|]. split.
  - repeat split; simpl; congruence.
  - split; intro Hf; [|congruence].
    simpl. rewrite no_getter_guard_app, Qg by assumption. reflexivity.
Qed.

Lemma completes_Get p : pending p <= n -> completes (Get run) p.
Proof.
  intro Hp. apply completes_bind; [apply completes_lock_guard_block|].
  intros _ p1 F. apply completes_GetST. rewrite (frame_pending F). exact Hp.
Qed.

Lemma completes_Set (v : T) p : pending p <= n -> completes (Set_ run v) p.
Proof.
  intro Hp. apply completes_bind; [apply completes_lock_guard_block|].
  intros _ p1 F. apply completes_SetST. rewrite (frame_pending F). exact Hp.
Qed.

Lemma completes_GetRaw p : completes (GetRaw (cfg := cfg)) p.
Proof.
  apply completes_bind; [apply completes_lock_guard_block|].
  intros _ p1 _. apply completes_load.
Qed.

Lemma completes_ApplyOperation (f : T -> T) p :
  pending p <= n -> completes (ApplyOperation run f) p.
Proof.
  intro Hp. apply completes_bind; [apply completes_lock_guard_block|].
  intros _ p1 F1. apply completes_bind.
  - apply completes_GetST. rewrite (frame_pending F1). exact Hp.
  - intros v p2 F2. apply completes_SetST.
    rewrite (frame_pending F2), (frame_pending F1). exact Hp.
Qed.

Lemma completes_exec (R : Type) (c : Prog T R) :
  forall p, pending p <= n -> completes (exec run c) p.
Proof.
  induction c as [r|k IH|k IH|v k IH|f k IH]; intros p Hp; simpl.
  - apply completes_ret.
  - apply completes_bind; [apply completes_Get; exact Hp|].
    intros v p1 F. apply IH. rewrite (frame_pending F). exact Hp.
  - apply completes_bind; [apply completes_GetRaw|].
    intros v p1 F. apply IH. rewrite (frame_pending F). exact Hp.
  - apply completes_bind; [apply completes_Set; exact Hp|].
    intros _ p1 F. apply IH. rewrite (frame_pending F). exact Hp.
  - apply completes_bind; [apply completes_ApplyOperation; exact Hp|].
    intros _ p1 F. apply IH. rewrite (frame_pending F). exact Hp.
Qed.

End Step.

(** A piece of code completes as soon as the bound exceeds the number of
    callbacks that can still be entered. *)
Lemma invoke_completes (n : nat) :
  forall (R : Type) (c : Prog T R) p, pending p < n -> completes (invoke n c) p.
Proof.
  induction n as [|n IH]; intros R c p Hp; [lia|].
  simpl. apply completes_exec with (n := n); [exact IH | lia].
Qed.

Lemma pending_le_2 p : pending p <= 2.
Proof.
  unfold pending.
  destruct (custom_getter p), (custom_setter p),
    (m_GetterActive p), (m_SetterActive p); simpl; lia.
Qed.

(** Three levels of nesting are enough for any code, two for any member
    function. *)
Lemma invoke_total (n : nat) (R : Type) (c : Prog T R) p :
  3 <= n -> completes (invoke n c) p.
Proof.
  intro Hn. apply invoke_completes. pose proof (pending_le_2 p). lia.
Qed.

End Termination.

(** ** The bound is only a bound *)

Section Monotone.

Context {T : Type} {cfg : Config}.

Implicit Types p : Property T cfg.

Lemma bind_extends {A B : Type} (m m' : M T cfg A) (f f' : A -> M T cfg B) :
  extends m m' -> (forall a, extends (f a) (f' a)) ->
  extends (bind m f) (bind m' f').
Proof.
  intros Hm Hf p x. unfold bind.
  destruct (m p) as [[[a p1] l1]|] eqn:E; [|discriminate].
  rewrite (Hm _ _ E).
  destruct (f a p1) as [[[b p2] l2]|] eqn:E2; [|discriminate].
  rewrite (Hf _ _ _ E2). trivial.
Qed.

Lemma extends_refl {A : Type} (m : M T cfg A) : extends m m.
Proof. intros p x E. exact E. Qed.

Section Runs.

Variables run run' : forall R : Type, Prog T R -> M T cfg R.
Hypothesis run_extends : forall (R : Type) (c : Prog T R), extends (run c) (run' c).

Lemma GetST_extends : extends (GetST run) (GetST run').
Proof.
  intros p x. unfold GetST.
  destruct (custom_getter p) as [getter|]; [|trivial].
  destruct (negb (m_GetterActive p)); [|trivial].
  apply bind_extends; [apply extends_refl|]. intros _.
  apply bind_extends; [apply run_extends|]. intros v. apply extends_refl.
Qed.

Lemma SetST_extends (v : T) : extends (SetST run v) (SetST run' v).
Proof.
  intros p x. unfold SetST.
  destruct (custom_setter p) as [setter|]; [|trivial].
  destruct (negb (m_SetterActive p)); [|trivial].
  apply bind_extends; [apply extends_refl|]. intros _.
  apply bind_extends; [apply run_extends|]. intros _. apply extends_refl.
Qed.

Lemma exec_extends (R : Type) (c : Prog T R) : extends (exec run c) (exec run' c).
Proof.
  induction c as [r|k IH|k IH|v k IH|f k IH]; simpl.
  - apply extends_refl.
  - apply bind_extends; [|exact IH].
    apply bind_extends; [apply extends_refl|]. intros _. apply GetST_extends.
  - apply bind_extends; [apply extends_refl|exact IH].
  - apply bind_extends; [|intros _; exact IH].
    apply bind_extends; [apply extends_refl|]. intros _. apply SetST_extends.
  - apply bind_extends; [|intros _; exact IH].
    apply bind_extends; [apply extends_refl|]. intros _.
    apply bind_extends; [apply GetST_extends|]. intros v. apply SetST_extends.
Qed.

End Runs.

Lemma invoke_S (n : nat) :
  forall (R : Type) (c : Prog T R) p x,
    invoke n c p = Some x -> invoke (S n) c p = Some x.
Proof.
  induction n as [|n IH]; intros R c p x; [discriminate|].
  change (exec (invoke n) c p = Some x -> exec (invoke (S n)) c p = Some x).
  apply exec_extends. intros R' c' p' x'. apply IH.
Qed.

(** A result obtained within a bound is the result within any larger one. *)
Lemma invoke_le (n m : nat) (R : Type) (c : Prog T R) p x :
  n <= m -> invoke n c p = Some x -> invoke m c p = Some x.
Proof.
  induction 1 as [|m Hle IH]; [trivial|].
  intro E. apply invoke_S. exact (IH E).
Qed.

End Monotone.

(** ** The raw paths *)

Section RawPaths.

Context {T : Type} {cfg : Config}.

Implicit Types p : Property T cfg.

Variable run : forall R : Type, Prog T R -> M T cfg R.

Lemma lock_guard_block_run p :
  lock_guard_block p = Some (tt, p, lock_log (cfg := cfg)).
Proof.
  unfold lock_guard_block, lock_log. destruct p as [v m g s sa ga].
  destruct (ThreadSafe cfg); reflexivity.
Qed.

Lemma bind_lock_guard_block {A : Type} (m : M T cfg A) p :
  bind lock_guard_block (fun _ => m) p =
  match m p with
  | Some (a, p', l) => Some (a, p', lock_log (cfg := cfg) ++ l)
  | None => None
  end.
Proof.
  unfold bind. rewrite lock_guard_block_run. reflexivity.
Qed.

Lemma GetST_no_getter p :
  custom_getter p = None -> GetST run p = load p.
Proof. intro E. unfold GetST. rewrite E. reflexivity. Qed.

Lemma GetST_active p :
  m_GetterActive p = true -> GetST run p = load p.
Proof.
  intro E. unfold GetST. rewrite E. destruct (custom_getter p); reflexivity.
Qed.

Lemma SetST_no_setter (v : T) p :
  custom_setter p = None -> SetST run v p = store v p.
Proof. intro E. unfold SetST. rewrite E. reflexivity. Qed.

Lemma SetST_active (v : T) p :
  m_SetterActive p = true -> SetST run v p = store v p.
Proof.
  intro E. unfold SetST. rewrite E. destruct (custom_setter p); reflexivity.
Qed.

Lemma GetST_dispatch p getter :
  custom_getter p = Some getter -> m_GetterActive p = false ->
  GetST run p =
  match run getter (set_GetterActive true p) with
  | Some (v, p', l) =>
      Some (v, set_GetterActive false p', EvGetterEnter :: l ++ [EvGetterLeave])
  | None => None
  end.
Proof.
  intros Eg Ea. unfold GetST. rewrite Eg, Ea. simpl.
  unfold bind, GetterGuard_ctor, GetterGuard_dtor, ret.
  destruct (run getter (set_GetterActive true p)) as [[[v p'] l]|]; reflexivity.
Qed.

Lemma SetST_dispatch (v : T) p setter :
  custom_setter p = Some setter -> m_SetterActive p = false ->
  SetST run v p =
  match run (setter v) (set_SetterActive true p) with
  | Some (_, p', l) =>
      Some (tt, set_SetterActive false p', EvSetterEnter v :: l ++ [EvSetterLeave])
  | None => None
  end.
Proof.
  intros Es Ea. unfold SetST. rewrite Es, Ea. simpl.
  unfold bind, SetterGuard_ctor, SetterGuard_dtor.
  destruct (run (setter v) (set_SetterActive true p)) as [[[[] p'] l]|]; reflexivity.
Qed.

Lemma GetRaw_run p :
  GetRaw p = Some (m_Value p, p, lock_log (cfg := cfg) ++ [EvLoad (m_Value p)]).
Proof.
  unfold GetRaw. rewrite bind_lock_guard_block. reflexivity.
Qed.

Lemma no_getter_guard_calls (l : list (Event T)) :
  no_getter_guard l = true -> getter_calls l = 0.
Proof.
  unfold no_getter_guard, getter_calls. induction l as [|e l IH]; simpl; [reflexivity|].
  intro H. apply andb_prop in H. destruct H as [He Hl].
  destruct e; simpl in *; try discriminate; auto.
Qed.

Lemma no_setter_guard_calls (l : list (Event T)) :
  no_setter_guard l = true -> setter_calls l = 0.
Proof.
  unfold no_setter_guard, setter_calls. induction l as [|e l IH]; simpl; [reflexivity|].
  intro H. apply andb_prop in H. destruct H as [He Hl].
  destruct e; simpl in *; try discriminate; auto.
Qed.

Lemma getter_calls_app (l1 l2 : list (Event T)) :
  getter_calls (l1 ++ l2) = getter_calls l1 + getter_calls l2.
Proof. unfold getter_calls. rewrite filter_app, length_app. reflexivity. Qed.

Lemma setter_calls_app (l1 l2 : list (Event T)) :
  setter_calls (l1 ++ l2) = setter_calls l1 + setter_calls l2.
Proof. unfold setter_calls. rewrite filter_app, length_app. reflexivity. Qed.

Lemma getter_calls_lock_log : getter_calls (lock_log (T := T) (cfg := cfg)) = 0.
Proof. unfold lock_log. destruct (ThreadSafe cfg); reflexivity. Qed.

Lemma setter_calls_lock_log : setter_calls (lock_log (T := T) (cfg := cfg)) = 0.
Proof. unfold lock_log. destruct (ThreadSafe cfg); reflexivity. Qed.

End RawPaths.

(** ** Write then read *)

Section WriteRead.

Context {T : Type} {cfg : Config}.

Implicit Types p : Property T cfg.

(** C1, as the code has it: on a writable property with no custom setter, a
    write of [v] completes and stores [v] as the underlying value, so
    [GetRaw] returns [v]; the next read returns exactly [v] when the property
    has no custom getter either. *)
Theorem C1_write_then_read p (v : T) (fuel : nat) :
  ReadOnly cfg = false ->
  custom_setter p = None ->
  operator_assign fuel v p =
    Some (tt, set_Value v p, lock_log (cfg := cfg) ++ [EvStore v]) /\
  m_Value (set_Value v p) = v /\
  GetRaw (set_Value v p) =
    Some (v, set_Value v p, lock_log (cfg := cfg) ++ [EvLoad v]) /\
  (custom_getter p = None ->
   operator_T fuel (set_Value v p) =
     Some (v, set_Value v p, lock_log (cfg := cfg) ++ [EvLoad v])).
Proof.
  intros _ Es. repeat split.
  - unfold operator_assign, Set_. rewrite bind_lock_guard_block.
    rewrite SetST_no_setter by exact Es. reflexivity.
  - apply GetRaw_run.
  - intro Eg. unfold operator_T, Get. rewrite bind_lock_guard_block.
    rewrite GetST_no_getter by exact Eg. reflexivity.
Qed.

End WriteRead.

Lemma C1_write_then_read_witness :
  operator_T 0 (set_Value 7%Z (@Property_value Z PropertyRW 0%Z)) =
    Some (7%Z, set_Value 7%Z (@Property_value Z PropertyRW 0%Z), [EvLoad 7%Z]).
Proof.
  apply (C1_write_then_read (@Property_value Z PropertyRW 0%Z) 7%Z 0);
    reflexivity.
Defined.

(** C1 as stated fails on a writable property that has a custom getter: with
    the getter of [Person] on a [PropertyRWG<std::string>], writing "X" makes
    the next read return "X USA". *)
Lemma C1_counterexample :
  ReadOnly PropertyRWG = false /\
  custom_setter (@Property_getter string PropertyRWG ""%string (Some Person.GetAddress)) = None /\
  exists p1 l1 p2 l2,
    operator_assign 3 "X"%string
      (@Property_getter string PropertyRWG ""%string (Some Person.GetAddress)) =
      Some (tt, p1, l1) /\
    operator_T 3 p1 = Some ("X USA"%string, p2, l2) /\
    "X USA"%string <> "X"%string.
Proof.
  split; [reflexivity|]. split; [reflexivity|].
  do 4 eexists. split; [reflexivity|]. split; [reflexivity|]. discriminate.
Qed.

(** ** The re-entrancy rule *)

Section Reentrancy.

Context {T : Type} {cfg : Config}.

Implicit Types p : Property T cfg.

Lemma pending_getter_active p : m_GetterActive p = true -> pending p <= 1.
Proof.
  unfold pending. intros ->.
  destruct (custom_getter p), (custom_setter p), (m_SetterActive p); simpl; lia.
Qed.

Lemma pending_setter_active p : m_SetterActive p = true -> pending p <= 1.
Proof.
  unfold pending. intros ->.
  destruct (custom_getter p), (custom_setter p), (m_GetterActive p); simpl; lia.
Qed.

(** C2: with a custom getter, a read made while the in-getter flag is clear
    sets the flag, runs the getter to completion under it (the flag is still
    set when the getter returns, and no getter guard is built in between),
    then clears it: the getter is entered exactly once. A read made while the
    flag is set returns the stored value. The same holds of writes, the
    setter and the in-setter flag. Two levels of nesting are enough for any
    callbacks. *)
Theorem C2_reentrancy p (fuel : nat) :
  2 <= fuel ->
  (forall getter,
     custom_getter p = Some getter -> m_GetterActive p = false ->
     exists v p' l,
       invoke fuel getter (set_GetterActive true p) = Some (v, p', l) /\
       m_GetterActive p' = true /\
       no_getter_guard l = true /\
       Get (invoke fuel) p =
         Some (v, set_GetterActive false p',
               lock_log (cfg := cfg) ++ EvGetterEnter :: l ++ [EvGetterLeave]) /\
       getter_calls
         (lock_log (cfg := cfg) ++ EvGetterEnter :: l ++ [EvGetterLeave]) = 1) /\
  (m_GetterActive p = true ->
   Get (invoke fuel) p =
     Some (m_Value p, p, lock_log (cfg := cfg) ++ [EvLoad (m_Value p)])) /\
  (forall setter (v : T),
     custom_setter p = Some setter -> m_SetterActive p = false ->
     exists p' l,
       invoke fuel (setter v) (set_SetterActive true p) = Some (tt, p', l) /\
       m_SetterActive p' = true /\
       no_setter_guard l = true /\
       Set_ (invoke fuel) v p =
         Some (tt, set_SetterActive false p',
               lock_log (cfg := cfg) ++ EvSetterEnter v :: l ++ [EvSetterLeave]) /\
       setter_calls
         (lock_log (cfg := cfg) ++ EvSetterEnter v :: l ++ [EvSetterLeave]) = 1) /\
  (m_SetterActive p = true ->
   forall v : T,
     Set_ (invoke fuel) v p =
       Some (tt, set_Value v p, lock_log (cfg := cfg) ++ [EvStore v])).
Proof.
  intro Hf. split; [|split; [|split]].
  - intros getter Eg Ea.
    assert (Hp : pending (set_GetterActive true p) < fuel).
    { pose proof (@pending_getter_active (set_GetterActive true p) eq_refl). lia. }
    destruct (@invoke_completes T cfg fuel _ getter _ Hp) as (v & p' & l & E & F & Q).
    destruct F as (_ & _ & _ & _ & Fga). destruct Q as [Qg _].
    simpl in Fga, Qg. specialize (Qg eq_refl).
    exists v, p', l. repeat split; try assumption.
    + unfold Get. rewrite bind_lock_guard_block.
      rewrite (GetST_dispatch _ _ Eg Ea), E. reflexivity.
    + rewrite getter_calls_app, getter_calls_lock_log.
      change (EvGetterEnter :: l ++ [EvGetterLeave])
        with ([EvGetterEnter] ++ l ++ [EvGetterLeave]).
      rewrite !getter_calls_app, (no_getter_guard_calls _ Qg). reflexivity.
  - intro Ea. unfold Get. rewrite bind_lock_guard_block.
    rewrite GetST_active by exact Ea. reflexivity.
  - intros setter v Es Ea.
    assert (Hp : pending (set_SetterActive true p) < fuel).
    { pose proof (@pending_setter_active (set_SetterActive true p) eq_refl). lia. }
    destruct (@invoke_completes T cfg fuel _ (setter v) _ Hp) as ([] & p' & l & E & F & Q).
    destruct F as (_ & _ & _ & Fsa & _). destruct Q as [_ Qs].
    simpl in Fsa, Qs. specialize (Qs eq_refl).
    exists p', l. repeat split; try assumption.
    + unfold Set_. rewrite bind_lock_guard_block.
      rewrite (SetST_dispatch _ _ _ Es Ea), E. reflexivity.
    + rewrite setter_calls_app, setter_calls_lock_log.
      change (EvSetterEnter v :: l ++ [EvSetterLeave])
        with ([EvSetterEnter v] ++ l ++ [EvSetterLeave]).
      rewrite !setter_calls_app, (no_setter_guard_calls _ Qs). reflexivity.
  - intros Ea v. unfold Set_. rewrite bind_lock_guard_block.
    rewrite SetST_active by exact Ea. reflexivity.
Qed.

End Reentrancy.

Lemma C2_reentrancy_witness :
  exists v p' l,
    invoke 2 Person.GetAddress (set_GetterActive true (Person.Address "X")) =
      Some (v, p', l) /\
    m_GetterActive p' = true /\
    no_getter_guard l = true /\
    Get (invoke 2) (Person.Address "X") =
      Some (v, set_GetterActive false p',
            lock_log (cfg := PropertyROG) ++ EvGetterEnter :: l ++ [EvGetterLeave]) /\
    getter_calls
      (lock_log (cfg := PropertyROG) ++ EvGetterEnter :: l ++ [EvGetterLeave]) = 1.
Proof.
  destruct (@C2_reentrancy string PropertyROG (Person.Address "X") 2 (le_n 2))
    as [Hg _].
  exact (Hg Person.GetAddress eq_refl eq_refl).
Defined.

(** ** Read-only properties *)

(** C3 fails on the code: [operator=] and [SetSetter] carry the guard
    [enable_if<!ReadOnly>], the compound assignments and the increments do
    not. On [PropertyRO<int> p(5)], [p += 3] compiles and leaves 8 in
    [m_Value], and [++p] leaves 6; [p = v] is rejected. *)
Theorem C3_read_only_compound_writes :
  ReadOnly PropertyRO = true /\
  compiles (cfg := PropertyRO) (Compound (fun v : Z => add v 3%Z) (Ret tt)) /\
  operator_compound 0 AddAssign 3%Z (@Property_value Z PropertyRO 5%Z) =
    Some (tt, @Property_value Z PropertyRO 8%Z, [EvLoad 5%Z; EvStore 8%Z]) /\
  operator_pre_inc 0 (@Property_value Z PropertyRO 5%Z) =
    Some (tt, @Property_value Z PropertyRO 6%Z, [EvLoad 5%Z; EvStore 6%Z]) /\
  (forall (v : Z) (k : Prog Z unit), ~ compiles (cfg := PropertyRO) (Assign v k)).
Proof.
  split; [reflexivity|]. split; [exact I|]. split; [reflexivity|].
  split; [reflexivity|]. intros v k [H _]. discriminate H.
Qed.

(** ** Compound assignment *)

Section CompoundAssignment.

Context {T : Type} {cfg : Config} `{Operators T}.

Implicit Types p : Property T cfg.

Lemma accesses_app (l1 l2 : list (Event T)) :
  accesses (l1 ++ l2) = accesses l1 ++ accesses l2.
Proof. apply filter_app. Qed.

Lemma accesses_lock_log : accesses (lock_log (T := T) (cfg := cfg)) = [].
Proof. unfold lock_log. destruct (ThreadSafe cfg); reflexivity. Qed.

Lemma ApplyOperation_run (fuel : nat) (f : T -> T) p :
  2 <= fuel ->
  exists v p1 lg p2 ls,
    GetST (invoke fuel) p = Some (v, p1, lg) /\
    SetST (invoke fuel) (f v) p1 = Some (tt, p2, ls) /\
    ApplyOperation (invoke fuel) f p =
      Some (tt, p2, lock_log (cfg := cfg) ++ lg ++ ls).
Proof.
  intro Hf. pose proof (pending_le_2 p) as Hp.
  destruct (@completes_GetST T cfg fuel (invoke fuel) (@invoke_completes T cfg fuel) p)
    as (v & p1 & lg & Eg & Fg & _); [lia|].
  pose proof (pending_le_2 p1) as Hp1.
  destruct (@completes_SetST T cfg fuel (invoke fuel) (@invoke_completes T cfg fuel) (f v) p1)
    as ([] & p2 & ls & Es & _ & _); [lia|].
  exists v, p1, lg, p2, ls. split; [exact Eg|]. split; [exact Es|].
  unfold ApplyOperation. rewrite bind_lock_guard_block.
  unfold bind. rewrite Eg, Es. reflexivity.
Qed.


(** C10: the postfix operators are the prefix operators: the same function
    of the property, with nothing returned but the property itself; on a
    property with neither custom getter nor custom setter, what is read
    through the reference that [p++] returns is the incremented value. *)
Theorem C10_postfix_is_prefix p (fuel : nat) :
  operator_post_inc fuel p = operator_pre_inc fuel p /\
  operator_post_dec fuel p = operator_pre_dec fuel p /\
  (custom_getter p = None -> custom_setter p = None ->
   exists l,
     bind (operator_post_inc fuel) (fun _ => operator_T fuel) p =
       Some (inc (m_Value p), set_Value (inc (m_Value p)) p, l)).
Proof.
  split; [reflexivity|]. split; [reflexivity|].
  intros Eg Es. eexists.
  unfold operator_post_inc, operator_T, ApplyOperation, Get.
  unfold bind at 1. rewrite bind_lock_guard_block.
  unfold bind at 1. rewrite GetST_no_getter by exact Eg. simpl.
  rewrite SetST_no_setter by exact Es. simpl.
  rewrite bind_lock_guard_block, GetST_no_getter by exact Eg. simpl.
  reflexivity.
Qed.

End CompoundAssignment.


Lemma C10_postfix_is_prefix_witness :
  exists l,
    bind (operator_post_inc 0) (fun _ => operator_T 0) (@Property_value Z PropertyRW 41%Z) =
      Some (42%Z, @Property_value Z PropertyRW 42%Z, l).
Proof.
  destruct (C10_postfix_is_prefix (@Property_value Z PropertyRW 41%Z) 0)
    as (_ & _ & H).
  exact (H eq_refl eq_refl).
Defined.

(** ** The properties of [Person] *)

Lemma clamp_spec (v : Z) :
  ((v < 0 -> clamp v 0 150 = 0) /\
   (150 < v -> clamp v 0 150 = 150) /\
   (0 <= v <= 150 -> clamp v 0 150 = v))%Z.
Proof.
  unfold clamp.
  destruct (Z.ltb_spec v 0); destruct (Z.ltb_spec 150 v); repeat split; lia.
Qed.

Lemma int_wrap_int (x : Z) : (- 2 ^ 31 <= x < 2 ^ 31)%Z -> int_wrap x = x.
Proof.
  unfold int_wrap.
  change (2 ^ 32)%Z with 4294967296%Z. change (2 ^ 31)%Z with 2147483648%Z.
  intro Hx. rewrite Z.mod_small; lia.
Qed.

Section ClampingSetter.

Context {cfg : Config}.

Implicit Types p : Property Z cfg.

Lemma SetterGuard_around_store p (c : Z) :
  m_SetterActive p = false ->
  set_SetterActive false (set_Value c (set_SetterActive true p)) = set_Value c p.
Proof.
  destruct p as [v m g s sa ga]. simpl. intros ->. reflexivity.
Qed.

(** [Set] on a property whose setter is [SetAge], from outside the setter. *)
Lemma Set_SetAge p (v : Z) (fuel : nat) :
  custom_setter p = Some Person.SetAge ->
  m_SetterActive p = false ->
  exists l,
    Set_ (invoke (S fuel)) v p = Some (tt, set_Value (clamp v 0 150) p, l) /\
    accesses l = [EvSetterEnter v; EvStore (clamp v 0 150); EvSetterLeave].
Proof.
  intros Es Ea.
  exists (lock_log (cfg := cfg) ++
          EvSetterEnter v ::
            ((lock_log (cfg := cfg) ++ [EvStore (clamp v 0 150)]) ++ []) ++
            [EvSetterLeave]).
  split.
  - unfold Set_ at 1. rewrite bind_lock_guard_block, (SetST_dispatch _ _ _ Es Ea).
    change (invoke (S fuel) (Person.SetAge v) (set_SetterActive true p))
      with (bind (Set_ (invoke fuel) (clamp v 0 150)) (fun _ => ret tt)
              (set_SetterActive true p)).
    unfold bind at 1. unfold Set_. rewrite bind_lock_guard_block.
    rewrite SetST_active by reflexivity. simpl.
    rewrite (SetterGuard_around_store _ _ Ea). reflexivity.
  - rewrite accesses_app, accesses_lock_log, app_nil_r.
    change (accesses
              ([EvSetterEnter v] ++
               (lock_log (cfg := cfg) ++ [EvStore (clamp v 0 150)]) ++
               [EvSetterLeave]) =
            [EvSetterEnter v; EvStore (clamp v 0 150); EvSetterLeave]).
    rewrite !accesses_app, accesses_lock_log. reflexivity.
Qed.

(** C5, as the code has it: on a writable property of [int] whose setter is
    [SetAge], which assigns the value clamped to [0,150] back to the
    property, a write made from outside the setter converts the operand to
    [int], enters the setter once and stores the converted value clamped to
    [0,150]: 0 below the range, 150 above it, the value itself inside it.
    [GetRaw] returns what was stored, and so does the next read when the
    property has no custom getter: then writing 200 makes the next read
    return 150, and writing -5 makes it return 0. *)
Theorem C5_clamping_setter p (x : Z) (fuel : nat) :
  ReadOnly cfg = false ->
  custom_setter p = Some Person.SetAge ->
  m_SetterActive p = false ->
  (exists l,
     operator_assign (cast := int_of_integer) (S fuel) x p =
       Some (tt, set_Value (clamp (int_wrap x) 0 150) p, l) /\
     accesses l =
       [EvSetterEnter (int_wrap x); EvStore (clamp (int_wrap x) 0 150);
        EvSetterLeave]) /\
  GetRaw (set_Value (clamp (int_wrap x) 0 150) p) =
    Some (clamp (int_wrap x) 0 150, set_Value (clamp (int_wrap x) 0 150) p,
          lock_log (cfg := cfg) ++ [EvLoad (clamp (int_wrap x) 0 150)]) /\
  (custom_getter p = None ->
   operator_T fuel (set_Value (clamp (int_wrap x) 0 150) p) =
     Some (clamp (int_wrap x) 0 150, set_Value (clamp (int_wrap x) 0 150) p,
           lock_log (cfg := cfg) ++ [EvLoad (clamp (int_wrap x) 0 150)])) /\
  ((int_wrap x < 0 -> clamp (int_wrap x) 0 150 = 0) /\
   (150 < int_wrap x -> clamp (int_wrap x) 0 150 = 150) /\
   (0 <= int_wrap x <= 150 -> clamp (int_wrap x) 0 150 = int_wrap x))%Z /\
  ((- 2 ^ 31 <= x < 2 ^ 31)%Z -> int_wrap x = x) /\
  (custom_getter p = None ->
   outcome (bind (operator_assign (S fuel) 200%Z) (fun _ => operator_T fuel) p) =
     Some (150%Z, set_Value 150%Z p) /\
   outcome (bind (operator_assign (S fuel) (-5)%Z) (fun _ => operator_T fuel) p) =
     Some (0%Z, set_Value 0%Z p)).
Proof.
  intros _ Es Ea.
  assert (Hread : forall c : Z,
            custom_getter p = None ->
            operator_T fuel (set_Value c p) =
              Some (c, set_Value c p, lock_log (cfg := cfg) ++ [EvLoad c])).
  { intros c Eg. unfold operator_T, Get. rewrite bind_lock_guard_block.
    rewrite GetST_no_getter by exact Eg. reflexivity. }
  assert (Hthen : forall v : Z,
            custom_getter p = None ->
            outcome (bind (operator_assign (S fuel) v) (fun _ => operator_T fuel) p) =
              Some (clamp v 0 150, set_Value (clamp v 0 150) p)).
  { intros v Eg. destruct (Set_SetAge p v fuel Es Ea) as (l & E & _).
    unfold bind, operator_assign, static_cast, static_cast_same.
    rewrite E, (Hread _ Eg). reflexivity. }
  split; [|split; [|split; [|split; [|split]]]].
  - exact (Set_SetAge p (int_wrap x) fuel Es Ea).
  - apply GetRaw_run.
  - apply Hread.
  - apply clamp_spec.
  - apply int_wrap_int.
  - intro Eg. split; [exact (Hthen 200%Z Eg) | exact (Hthen (-5)%Z Eg)].
Qed.

End ClampingSetter.

Lemma C5_clamping_setter_witness :
  outcome (bind (operator_assign 1 200%Z) (fun _ => operator_T 0) (Person.Age 0)) =
    Some (150%Z, Person.Age 150) /\
  outcome (bind (operator_assign 1 (-5)%Z) (fun _ => operator_T 0) (Person.Age 0)) =
    Some (0%Z, Person.Age 0).
Proof.
  apply (C5_clamping_setter (Person.Age 0) 200 0); reflexivity.
Defined.

(** C5 as stated fails in two ways. With a custom getter the next read is
    what the getter computes: on a [PropertyRWGS<int>] whose setter is
    [SetAge] and whose getter is [return p() + 1;], writing 200 makes the
    next read return 151. And the operand is converted to [int] before it
    is clamped: [Age = 3000000000LL] stores 0, though the bound nearest to
    3000000000 is 150. *)
Lemma C5_counterexample :
  (ReadOnly PropertyRWGS = false /\
   custom_setter
     (@Property_getter_setter Z PropertyRWGS 0%Z
        (Some (Read (fun v => Ret (v + 1)%Z))) (Some Person.SetAge)) =
     Some Person.SetAge /\
   exists p1 l1 p2 l2,
     operator_assign 2 200%Z
       (@Property_getter_setter Z PropertyRWGS 0%Z
          (Some (Read (fun v => Ret (v + 1)%Z))) (Some Person.SetAge)) =
       Some (tt, p1, l1) /\
     operator_T 2 p1 = Some (151%Z, p2, l2) /\
     151%Z <> 150%Z) /\
  (exists l1 l2,
     operator_assign (cast := int_of_integer) 1 3000000000%Z (Person.Age 0) =
       Some (tt, Person.Age 0, l1) /\
     operator_T 1 (Person.Age 0) = Some (0%Z, Person.Age 0, l2) /\
     clamp 3000000000 0 150 = 150%Z /\
     0%Z <> 150%Z).
Proof.
  split.
  - split; [reflexivity|]. split; [reflexivity|].
    do 4 eexists. split; [reflexivity|]. split; [reflexivity|]. discriminate.
  - do 2 eexists. split; [vm_compute; reflexivity|].
    split; [reflexivity|]. split; [reflexivity | discriminate].
Qed.

Section AppendingGetter.

Context {cfg : Config}.

Implicit Types p : Property string cfg.

Lemma GetterGuard_round_trip p :
  m_GetterActive p = false ->
  set_GetterActive false (set_GetterActive true p) = p.
Proof.
  destruct p as [v m g s sa ga]. simpl. intros ->. reflexivity.
Qed.

(** C6: when the custom getter is [return p() + suffix;], a read made while
    the in-getter flag is clear returns the stored value followed by the
    suffix and leaves the property as it was, so the stored value is the
    same and two reads in a row return the same string; the getter is
    entered once per read. *)
Theorem C6_getter_appends_once p (suffix : string) (fuel : nat) :
  custom_getter p = Some (Read (fun address => Ret (address ++ suffix)%string)) ->
  m_GetterActive p = false ->
  exists l,
    operator_T (S fuel) p = Some ((m_Value p ++ suffix)%string, p, l) /\
    getter_calls l = 1 /\
    bind (operator_T (S fuel))
      (fun first => bind (operator_T (S fuel)) (fun second => ret (first, second))) p =
      Some (((m_Value p ++ suffix)%string, (m_Value p ++ suffix)%string), p,
            l ++ l ++ []).
Proof.
  intros Eg Ea.
  assert (E : operator_T (S fuel) p =
              Some ((m_Value p ++ suffix)%string, p,
                    lock_log (cfg := cfg) ++
                    EvGetterEnter ::
                      (lock_log (cfg := cfg) ++ [EvLoad (m_Value p)]) ++
                      [EvGetterLeave])).
  { unfold operator_T, Get. rewrite bind_lock_guard_block.
    rewrite (GetST_dispatch _ _ Eg Ea). simpl.
    unfold Get. unfold bind at 1. rewrite bind_lock_guard_block.
    rewrite GetST_active by reflexivity. simpl.
    rewrite (GetterGuard_round_trip _ Ea), app_nil_r. reflexivity. }
  eexists. split; [exact E|]. split.
  - rewrite getter_calls_app, getter_calls_lock_log.
    change (getter_calls
              ([EvGetterEnter] ++
               (lock_log (cfg := cfg) ++ [EvLoad (m_Value p)]) ++ [EvGetterLeave]) = 1).
    rewrite !getter_calls_app, getter_calls_lock_log. reflexivity.
  - unfold bind. rewrite E, E. reflexivity.
Qed.

End AppendingGetter.

Lemma C6_getter_appends_once_witness :
  exists l,
    operator_T 1 (Person.Address "X") = Some ("X USA"%string, Person.Address "X", l) /\
    getter_calls l = 1 /\
    bind (operator_T 1)
      (fun first => bind (operator_T 1) (fun second => ret (first, second)))
      (Person.Address "X") =
      Some (("X USA"%string, "X USA"%string), Person.Address "X", l ++ l ++ []).
Proof.
  apply (C6_getter_appends_once (Person.Address "X") Person.predefinedCountry 0);
    reflexivity.
Defined.

(** ** [SetGetter] and [SetSetter] *)

Section Slots.

Context {T : Type} {cfg : Config}.

Implicit Types p : Property T cfg.

Lemma SetGetter_run p (customGetter : Getter T (GetterType cfg)) :
  SetGetter customGetter p =
  Some (tt,
        set_Getter (assign_Getter (GetterType cfg) (m_Getter p) customGetter) p,
        lock_log (cfg := cfg)).
Proof.
  unfold SetGetter. rewrite bind_lock_guard_block. unfold ret.
  rewrite app_nil_r. reflexivity.
Qed.

Lemma SetSetter_run p (customSetter : Setter T (SetterType cfg)) :
  SetSetter customSetter p =
  Some (tt,
        set_Setter (assign_Setter (SetterType cfg) (m_Setter p) customSetter) p,
        lock_log (cfg := cfg)).
Proof.
  unfold SetSetter. rewrite bind_lock_guard_block. unfold ret.
  rewrite app_nil_r. reflexivity.
Qed.

Lemma set_Getter_same p : set_Getter (m_Getter p) p = p.
Proof. destruct p; reflexivity. Qed.

Lemma set_Setter_same p : set_Setter (m_Setter p) p = p.
Proof. destruct p; reflexivity. Qed.

Lemma assign_Getter_no_slot p (customGetter : Getter T (GetterType cfg)) :
  GetterType cfg = NoGetter ->
  assign_Getter (GetterType cfg) (m_Getter p) customGetter = m_Getter p.
Proof.
  intro E. generalize (m_Getter p) customGetter. rewrite E.
  intros [] []. reflexivity.
Qed.

Lemma assign_Setter_no_slot p (customSetter : Setter T (SetterType cfg)) :
  SetterType cfg = NoSetter ->
  assign_Setter (SetterType cfg) (m_Setter p) customSetter = m_Setter p.
Proof.
  intro E. generalize (m_Setter p) customSetter. rewrite E.
  intros [] []. reflexivity.
Qed.

Lemma assign_Getter_slot p (customGetter : Getter T (GetterType cfg)) :
  GetterType cfg <> NoGetter ->
  assign_Getter (GetterType cfg) (m_Getter p) customGetter = m_Getter p.
Proof.
  intro E. generalize (m_Getter p) customGetter.
  destruct (GetterType cfg); [reflexivity | reflexivity | contradiction].
Qed.

Lemma assign_Setter_slot p (customSetter : Setter T (SetterType cfg)) :
  SetterType cfg <> NoSetter ->
  assign_Setter (SetterType cfg) (m_Setter p) customSetter = m_Setter p.
Proof.
  intro E. generalize (m_Setter p) customSetter.
  destruct (SetterType cfg); [reflexivity | reflexivity | contradiction].
Qed.

Lemma bind_unchanged {A : Type} (m : M T cfg unit) (k : M T cfg A) p l0 :
  m p = Some (tt, p, l0) ->
  outcome (bind m (fun _ => k) p) = outcome (k p).
Proof.
  intro E. unfold bind. rewrite E.
  destruct (k p) as [[[a p'] l]|]; reflexivity.
Qed.

(** C7: without a getter slot [SetGetter] completes, returns nothing and
    leaves the property as it was, whatever it is given, so any code that
    runs next behaves as without the call; the same for [SetSetter] without
    a setter slot, on a property that is not read-only. *)
Theorem C7_no_slot_is_noop p :
  (GetterType cfg = NoGetter ->
   forall customGetter : Getter T (GetterType cfg),
     SetGetter customGetter p = Some (tt, p, lock_log (cfg := cfg)) /\
     forall (fuel : nat) (R : Type) (c : Prog T R),
       outcome (bind (SetGetter customGetter) (fun _ => invoke fuel c) p) =
       outcome (invoke fuel c p)) /\
  (SetterType cfg = NoSetter -> ReadOnly cfg = false ->
   forall customSetter : Setter T (SetterType cfg),
     SetSetter customSetter p = Some (tt, p, lock_log (cfg := cfg)) /\
     forall (fuel : nat) (R : Type) (c : Prog T R),
       outcome (bind (SetSetter customSetter) (fun _ => invoke fuel c) p) =
       outcome (invoke fuel c p)).
Proof.
  split.
  - intros E g.
    assert (Hrun : SetGetter g p = Some (tt, p, lock_log (cfg := cfg))).
    { rewrite SetGetter_run, assign_Getter_no_slot by exact E.
      rewrite set_Getter_same. reflexivity. }
    split; [exact Hrun|]. intros fuel R c. exact (bind_unchanged _ _ Hrun).
  - intros E _ s.
    assert (Hrun : SetSetter s p = Some (tt, p, lock_log (cfg := cfg))).
    { rewrite SetSetter_run, assign_Setter_no_slot by exact E.
      rewrite set_Setter_same. reflexivity. }
    split; [exact Hrun|]. intros fuel R c. exact (bind_unchanged _ _ Hrun).
Qed.

(** C9: with a getter slot [SetGetter] does not install what it is given:
    the property, its [m_Getter] included, is as before, so any code that
    runs next behaves as without the call and the only callable the getter
    slot ever holds is the one it held before; the same for [SetSetter]
    with a setter slot. *)
Theorem C9_slot_is_never_replaced p :
  (GetterType cfg <> NoGetter ->
   forall customGetter : Getter T (GetterType cfg),
     SetGetter customGetter p = Some (tt, p, lock_log (cfg := cfg)) /\
     forall (fuel : nat) (R : Type) (c : Prog T R),
       outcome (bind (SetGetter customGetter) (fun _ => invoke fuel c) p) =
       outcome (invoke fuel c p)) /\
  (SetterType cfg <> NoSetter ->
   forall customSetter : Setter T (SetterType cfg),
     SetSetter customSetter p = Some (tt, p, lock_log (cfg := cfg)) /\
     forall (fuel : nat) (R : Type) (c : Prog T R),
       outcome (bind (SetSetter customSetter) (fun _ => invoke fuel c) p) =
       outcome (invoke fuel c p)).
Proof.
  split.
  - intros E g.
    assert (Hrun : SetGetter g p = Some (tt, p, lock_log (cfg := cfg))).
    { rewrite SetGetter_run, assign_Getter_slot by exact E.
      rewrite set_Getter_same. reflexivity. }
    split; [exact Hrun|]. intros fuel R c. exact (bind_unchanged _ _ Hrun).
  - intros E s.
    assert (Hrun : SetSetter s p = Some (tt, p, lock_log (cfg := cfg))).
    { rewrite SetSetter_run, assign_Setter_slot by exact E.
      rewrite set_Setter_same. reflexivity. }
    split; [exact Hrun|]. intros fuel R c. exact (bind_unchanged _ _ Hrun).
Qed.

End Slots.

Lemma C7_no_slot_is_noop_witness :
  @SetGetter Z PropertyRWSMT NoGetter_value (Person.Age 42) = Some (tt, Person.Age 42, [EvLock; EvUnlock]) /\
  @SetSetter Z PropertyRW NoSetter_value (@Property_value Z PropertyRW 42%Z) =
    Some (tt, @Property_value Z PropertyRW 42%Z, []).
Proof.
  split.
  - exact (proj1 (proj1 (C7_no_slot_is_noop (Person.Age 42)) eq_refl NoGetter_value)).
  - exact (proj1 (proj2 (C7_no_slot_is_noop (@Property_value Z PropertyRW 42%Z))
                    eq_refl eq_refl NoSetter_value)).
Defined.

Lemma C9_slot_is_never_replaced_witness :
  @SetGetter string PropertyROG (Some (Ret "elsewhere"%string)) (Person.Address "X") =
    Some (tt, Person.Address "X", []) /\
  @SetSetter Z PropertyRWSMT (Some (fun _ : Z => Ret tt)) (Person.Age 42) =
    Some (tt, Person.Age 42, [EvLock; EvUnlock]).
Proof.
  split.
  - refine (proj1 (proj1 (C9_slot_is_never_replaced (Person.Address "X")) _
                     (Some (Ret "elsewhere"%string)))).
    discriminate.
  - refine (proj1 (proj2 (C9_slot_is_never_replaced (Person.Age 42)) _
                     (Some (fun _ : Z => Ret tt)))).
    discriminate.
Defined.

(** ** The scope of the lock *)

Section LockScope.

Context {T : Type} {cfg : Config}.

Implicit Types p : Property T cfg.

Variable run : forall R : Type, Prog T R -> M T cfg R.

Lemma GetST_log_head p r p' l :
  GetST run p = Some (r, p', l) ->
  exists e l', l = e :: l' /\ is_lock_event e = false.
Proof.
  unfold GetST, load.
  destruct (custom_getter p) as [getter|];
    [destruct (m_GetterActive p); simpl|].
  - intro E. injection E as _ _ <-. eauto.
  - unfold bind, GetterGuard_ctor.
    destruct (run getter (set_GetterActive true p)) as [[[v p1] l1]|];
      [|discriminate].
    simpl. intro E. injection E as _ _ <-. eauto.
  - intro E. injection E as _ _ <-. eauto.
Qed.

Lemma SetST_log_head (v : T) p r p' l :
  SetST run v p = Some (r, p', l) ->
  exists e l', l = e :: l' /\ is_lock_event e = false.
Proof.
  unfold SetST, store.
  destruct (custom_setter p) as [setter|];
    [destruct (m_SetterActive p); simpl|].
  - intro E. injection E as _ _ <-. eauto.
  - unfold bind, SetterGuard_ctor.
    destruct (run (setter v) (set_SetterActive true p)) as [[[[] p1] l1]|];
      [|discriminate].
    simpl. intro E. injection E as _ _ <-. eauto.
  - intro E. injection E as _ _ <-. eauto.
Qed.

Lemma under_lock_released (e : Event T) (l : list (Event T)) :
  is_lock_event e = false ->
  under_lock 0 (EvLock :: EvUnlock :: e :: l) = false.
Proof. destruct e; simpl; intro H; try discriminate H; reflexivity. Qed.

(** A guard that lives as long as the access keeps it under the lock. *)
Lemma under_lock_held (v : T) :
  under_lock 0 [EvLock; EvLoad v; EvUnlock] = true.
Proof. reflexivity. Qed.

(** On a thread-safe property, a completed read or write made by a thread
    that does not hold the mutex has released it before its first access. *)
Lemma Get_lock_released p r p' l :
  ThreadSafe cfg = true ->
  Get run p = Some (r, p', l) ->
  under_lock 0 l = false.
Proof.
  intros Hts. unfold Get. rewrite bind_lock_guard_block.
  destruct (GetST run p) as [[[v p1] l1]|] eqn:E; [|discriminate].
  destruct (GetST_log_head _ E) as (e & l' & -> & He).
  intro H. injection H as _ _ <-. unfold lock_log. rewrite Hts.
  apply under_lock_released. exact He.
Qed.

Lemma Set_lock_released (v : T) p r p' l :
  ThreadSafe cfg = true ->
  Set_ run v p = Some (r, p', l) ->
  under_lock 0 l = false.
Proof.
  intros Hts. unfold Set_. rewrite bind_lock_guard_block.
  destruct (SetST run v p) as [[[u p1] l1]|] eqn:E; [|discriminate].
  destruct (SetST_log_head _ _ E) as (e & l' & -> & He).
  intro H. injection H as _ _ <-. unfold lock_log. rewrite Hts.
  apply under_lock_released. exact He.
Qed.

End LockScope.

(** C8 fails on the code: the [std::lock_guard] is a local of the block of
    [if constexpr (ThreadSafe) { ... }], so the mutex is released at the
    closing brace, before [GetST] or [SetST] runs. On the thread-safe
    [Person::Age], [Age = 50] enters the setter and stores with the mutex
    free, and so does the read that follows. *)
Theorem C8_lock_released_before_access :
  ThreadSafe PropertyRWSMT = true /\
  operator_assign 1 50%Z (Person.Age 0) =
    Some (tt, Person.Age 50,
          [EvLock; EvUnlock; EvSetterEnter 50%Z;
           EvLock; EvUnlock; EvStore 50%Z; EvSetterLeave]) /\
  under_lock 0
    [EvLock; EvUnlock; EvSetterEnter 50%Z;
     EvLock; EvUnlock; EvStore 50%Z; EvSetterLeave] = false /\
  operator_T 1 (Person.Age 50) =
    Some (50%Z, Person.Age 50, [EvLock; EvUnlock; EvLoad 50%Z]) /\
  under_lock 0 [EvLock; EvUnlock; EvLoad 50%Z] = false.
Proof.
  repeat split.
Qed.

(** ** What every call keeps *)

Section Kept.

Context {T : Type} {cfg : Config}.

Implicit Types p : Property T cfg.

Lemma frame_set_Value p p' : frame p p' -> p' = set_Value (m_Value p') p.
Proof.
  destruct p as [v m g s sa ga], p' as [v' m' g' s' sa' ga'].
  unfold frame. simpl. intros (-> & -> & -> & -> & ->). reflexivity.
Qed.


Lemma bind_Some {A B : Type} (m : M T cfg A) (f : A -> M T cfg B) p r p' l :
  bind m f p = Some (r, p', l) ->
  exists a p1 l1 l2,
    m p = Some (a, p1, l1) /\ f a p1 = Some (r, p', l2) /\ l = l1 ++ l2.
Proof.
  unfold bind. destruct (m p) as [[[a p1] l1]|] eqn:E1; [|discriminate].
  destruct (f a p1) as [[[b p2] l2]|] eqn:E2; [|discriminate].
  intro E. injection E as <- <- <-. exists a, p1, l1, l2.
  split; [reflexivity | split; [exact E2 | reflexivity]].
Qed.

(** X1. Any code, with any callbacks, completes within three levels of
    nesting and can change nothing of the property but the stored value:
    both flags, both callbacks and the count of the mutex are as before. *)
Theorem only_the_value_changes p (fuel : nat) (R : Type) (c : Prog T R) :
  3 <= fuel ->
  exists r v l, invoke fuel c p = Some (r, set_Value v p, l).
Proof.
  intro Hf. destruct (invoke_total c p Hf) as (r & p' & l & E & F & _).
  exists r, (m_Value p'), l. rewrite <- (frame_set_Value F). exact E.
Qed.

Section LogInvariant.

(** A property of logs that holds of what each step logs and of
    concatenations holds of the log of every completed call. *)
Variable Q : list (Event T) -> Prop.
Hypothesis Q_nil : Q [].
Hypothesis Q_app : forall l1 l2, Q l1 -> Q l2 -> Q (l1 ++ l2).
Hypothesis Q_lock_log : Q (lock_log (cfg := cfg)).
Hypothesis Q_event : forall e, is_lock_event e = false -> Q [e].

Lemma Q_guarded (e1 e2 : Event T) l :
  is_lock_event e1 = false -> is_lock_event e2 = false ->
  Q l -> Q (e1 :: l ++ [e2]).
Proof.
  intros H1 H2 Hl. change (Q ([e1] ++ l ++ [e2])). auto.
Qed.

Section LogStep.

Variable run : forall R : Type, Prog T R -> M T cfg R.
Hypothesis run_log :
  forall (R : Type) (c : Prog T R) p r p' l, run c p = Some (r, p', l) -> Q l.

Lemma GetST_log p r p' l : GetST run p = Some (r, p', l) -> Q l.
Proof.
  unfold GetST, load.
  destruct (custom_getter p) as [getter|];
    [destruct (m_GetterActive p); simpl|].
  - intro E. injection E as _ _ <-. auto.
  - unfold bind, GetterGuard_ctor, GetterGuard_dtor, ret.
    destruct (run getter (set_GetterActive true p)) as [[[v p1] l1]|] eqn:E1;
      [|discriminate].
    simpl. intro E. injection E as _ _ <-.
    apply Q_guarded; [reflexivity | reflexivity | eapply run_log; exact E1].
  - intro E. injection E as _ _ <-. auto.
Qed.

Lemma SetST_log (v : T) p r p' l : SetST run v p = Some (r, p', l) -> Q l.
Proof.
  unfold SetST, store.
  destruct (custom_setter p) as [setter|];
    [destruct (m_SetterActive p); simpl|].
  - intro E. injection E as _ _ <-. auto.
  - unfold bind, SetterGuard_ctor, SetterGuard_dtor.
    destruct (run (setter v) (set_SetterActive true p)) as [[[[] p1] l1]|] eqn:E1;
      [|discriminate].
    simpl. intro E. injection E as _ _ <-.
    apply Q_guarded; [reflexivity | reflexivity | eapply run_log; exact E1].
  - intro E. injection E as _ _ <-. auto.
Qed.

Lemma locked_log {A : Type} (m : M T cfg A) p r p' l :
  (forall p r p' l, m p = Some (r, p', l) -> Q l) ->
  bind lock_guard_block (fun _ => m) p = Some (r, p', l) -> Q l.
Proof.
  intros Hm. rewrite bind_lock_guard_block.
  destruct (m p) as [[[a p1] l1]|] eqn:E; [|discriminate].
  intro H. injection H as _ _ <-. apply Q_app; [exact Q_lock_log|].
  eapply Hm. exact E.
Qed.

Lemma exec_log (R : Type) (c : Prog T R) :
  forall p r p' l, exec run c p = Some (r, p', l) -> Q l.
Proof.
  induction c as [r0|k IH|k IH|v k IH|f k IH]; intros p r p' l; simpl.
  - intro E. injection E as _ _ <-. exact Q_nil.
  - intro E. apply bind_Some in E. destruct E as (a & p1 & l1 & l2 & E1 & E2 & ->).
    apply Q_app; [|eapply IH; exact E2].
    revert E1. apply locked_log. apply GetST_log.
  - intro E. apply bind_Some in E. destruct E as (a & p1 & l1 & l2 & E1 & E2 & ->).
    apply Q_app; [|eapply IH; exact E2].
    revert E1. apply locked_log. unfold load. intros q r1 q' l' H.
    injection H as _ _ <-. auto.
  - intro E. apply bind_Some in E. destruct E as (a & p1 & l1 & l2 & E1 & E2 & ->).
    apply Q_app; [|eapply IH; exact E2].
    revert E1. apply locked_log. apply SetST_log.
  - intro E. apply bind_Some in E. destruct E as (a & p1 & l1 & l2 & E1 & E2 & ->).
    apply Q_app; [|eapply IH; exact E2].
    revert E1. apply locked_log. intros q r1 q' l' H.
    apply bind_Some in H. destruct H as (u & q1 & m1 & m2 & H1 & H2 & ->).
    apply Q_app; [eapply GetST_log; exact H1 | eapply SetST_log; exact H2].
Qed.

End LogStep.

Lemma invoke_log (n : nat) :
  forall (R : Type) (c : Prog T R) p r p' l,
    invoke n c p = Some (r, p', l) -> Q l.
Proof.
  induction n as [|n IH]; intros R c p r p' l; [discriminate|].
  simpl. apply exec_log. exact IH.
Qed.

End LogInvariant.

Lemma lock_never_held_app (l1 l2 : list (Event T)) :
  forall held,
    lock_never_held held l1 = true ->
    lock_never_held false l2 = true ->
    lock_never_held held (l1 ++ l2) = true.
Proof.
  induction l1 as [|e l1 IH]; intros held H1 H2; simpl in *.
  - destruct held; [discriminate|exact H2].
  - destruct e; apply andb_prop in H1; destruct H1 as [Ha Hb];
      rewrite Ha; simpl; apply IH; assumption.
Qed.

(** X8. Whatever the code and the callbacks, every lock of the mutex is
    followed at once by its unlock: the mutex is never held while
    [m_Value] is read or written or while a callback runs, and never
    re-entered. *)
Theorem lock_is_never_held_across_an_access p (fuel : nat) (R : Type) (c : Prog T R) :
  3 <= fuel ->
  exists r p' l,
    invoke fuel c p = Some (r, p', l) /\ lock_never_held false l = true.
Proof.
  intro Hf. destruct (invoke_total c p Hf) as (r & p' & l & E & _ & _).
  exists r, p', l. split; [exact E|].
  revert E.
  apply (invoke_log (fun l => lock_never_held false l = true)).
  - reflexivity.
  - intros l1 l2. apply lock_never_held_app.
  - unfold lock_log. destruct (ThreadSafe cfg); reflexivity.
  - intros e He. destruct e; try discriminate He; reflexivity.
Qed.

End Kept.

Lemma only_the_value_changes_witness :
  exists r v l,
    invoke 3 (Assign 200%Z (Read (fun a => Ret a))) (Person.Age 7) =
      Some (r, set_Value v (Person.Age 7), l).
Proof.
  apply (only_the_value_changes (Person.Age 7)). lia.
Defined.

Lemma lock_is_never_held_across_an_access_witness :
  exists r p' l,
    invoke 3 (Assign 200%Z (Read (fun a => Ret a))) (Person.Age 7) = Some (r, p', l) /\
    lock_never_held false l = true.
Proof.
  apply (lock_is_never_held_across_an_access (Person.Age 7)). lia.
Defined.

(** ** Properties without callbacks, and code that only reads *)

Section Plain.

Context {T : Type} {cfg : Config}.

Implicit Types p : Property T cfg.

Lemma no_write_app (l1 l2 : list (Event T)) :
  no_write (l1 ++ l2) = no_write l1 && no_write l2.
Proof. apply forallb_app. Qed.

Lemma no_write_lock_log : no_write (lock_log (T := T) (cfg := cfg)) = true.
Proof. unfold lock_log. destruct (ThreadSafe cfg); reflexivity. Qed.



Lemma GetterGuard_restores p :
  m_GetterActive p = false ->
  set_GetterActive false (set_GetterActive true p) = p.
Proof.
  destruct p as [v m g s sa ga]. simpl. intros ->. reflexivity.
Qed.

Lemma SetterGuard_restores p :
  m_SetterActive p = false ->
  set_SetterActive false (set_SetterActive true p) = p.
Proof.
  destruct p as [v m g s sa ga]. simpl. intros ->. reflexivity.
Qed.

(** Reads that take the raw path. *)
Lemma exec_reads_raw (run : forall R : Type, Prog T R -> M T cfg R)
  (R : Type) (c : Prog T R) p :
  custom_getter p = None \/ m_GetterActive p = true ->
  reads_only c ->
  exists r l, exec run c p = Some (r, p, l) /\ no_write l = true.
Proof.
  intro Hraw.
  assert (Hget : GetST run p = load p).
  { destruct Hraw as [E|E]; [apply GetST_no_getter | apply GetST_active]; exact E. }
  induction c as [r|k IH|k IH|v k IH|f k IH]; simpl; intro Hc; try contradiction.
  - exists r, []. split; reflexivity.
  - destruct (IH (m_Value p) (Hc (m_Value p))) as (r & l & E & Hl).
    exists r, ((lock_log (cfg := cfg) ++ [EvLoad (m_Value p)]) ++ l).
    unfold bind at 1. unfold Get. rewrite bind_lock_guard_block, Hget. simpl.
    rewrite E. split; [reflexivity|].
    rewrite !no_write_app, no_write_lock_log, Hl. reflexivity.
  - destruct (IH (m_Value p) (Hc (m_Value p))) as (r & l & E & Hl).
    exists r, ((lock_log (cfg := cfg) ++ [EvLoad (m_Value p)]) ++ l).
    unfold bind at 1. rewrite GetRaw_run, E. split; [reflexivity|].
    rewrite !no_write_app, no_write_lock_log, Hl. reflexivity.
Qed.

Lemma Get_reads (n : nat) p :
  (forall getter, custom_getter p = Some getter -> reads_only getter) ->
  exists v l, Get (invoke (S n)) p = Some (v, p, l) /\ no_write l = true.
Proof.
  intro Hg. unfold Get.
  destruct (custom_getter p) as [getter|] eqn:Eg.
  - destruct (m_GetterActive p) eqn:Ea.
    + exists (m_Value p), (lock_log (cfg := cfg) ++ [EvLoad (m_Value p)]).
      rewrite bind_lock_guard_block, GetST_active by exact Ea.
      split; [reflexivity|]. rewrite no_write_app, no_write_lock_log. reflexivity.
    + destruct (@exec_reads_raw (invoke n) T getter (set_GetterActive true p))
        as (v & l & E & Hl); [right; reflexivity | apply Hg; reflexivity |].
      exists v, (lock_log (cfg := cfg) ++ EvGetterEnter :: l ++ [EvGetterLeave]).
      rewrite bind_lock_guard_block, (GetST_dispatch _ _ Eg Ea).
      change (invoke (S n) getter (set_GetterActive true p))
        with (exec (invoke n) getter (set_GetterActive true p)).
      rewrite E, (GetterGuard_restores _ Ea). split; [reflexivity|].
      rewrite no_write_app, no_write_lock_log.
      change (no_write ([EvGetterEnter] ++ l ++ [EvGetterLeave]) = true).
      rewrite !no_write_app, Hl. reflexivity.
  - exists (m_Value p), (lock_log (cfg := cfg) ++ [EvLoad (m_Value p)]).
    rewrite bind_lock_guard_block, GetST_no_getter by exact Eg.
    split; [reflexivity|]. rewrite no_write_app, no_write_lock_log. reflexivity.
Qed.

Lemma exec_reads (n : nat) (R : Type) (c : Prog T R) p :
  (forall getter, custom_getter p = Some getter -> reads_only getter) ->
  reads_only c ->
  exists r l, exec (invoke (S n)) c p = Some (r, p, l) /\ no_write l = true.
Proof.
  intro Hg. destruct (Get_reads n p Hg) as (v & l1 & E1 & Hl1).
  remember (@invoke T cfg (S n)) as run eqn:Hrun. clear Hrun.
  induction c as [r|k IH|k IH|v' k IH|f k IH]; simpl; intro Hc; try contradiction.
  - exists r, []. split; reflexivity.
  - destruct (IH v (Hc v)) as (r & l & E & Hl).
    exists r, (l1 ++ l). unfold bind at 1. rewrite E1, E.
    split; [reflexivity|]. rewrite no_write_app, Hl1, Hl. reflexivity.
  - destruct (IH (m_Value p) (Hc (m_Value p))) as (r & l & E & Hl).
    exists r, ((lock_log (cfg := cfg) ++ [EvLoad (m_Value p)]) ++ l).
    unfold bind at 1. rewrite GetRaw_run, E. split; [reflexivity|].
    rewrite !no_write_app, no_write_lock_log, Hl. reflexivity.
Qed.

(** X3. Code that only reads (conversions to [T] and [GetRaw]), on a
    property whose getter, if any, only reads too, leaves the property
    exactly as it was: nothing is stored and the setter is never entered. *)
Theorem reading_changes_nothing p (fuel : nat) (R : Type) (c : Prog T R) :
  2 <= fuel ->
  (forall getter, custom_getter p = Some getter -> reads_only getter) ->
  reads_only c ->
  exists r l, invoke fuel c p = Some (r, p, l) /\ no_write l = true.
Proof.
  intros Hf Hg Hc. destruct fuel as [|[|n]]; try lia.
  change (invoke (S (S n)) c p) with (exec (invoke (S n)) c p).
  apply exec_reads; assumption.
Qed.

(** X9. A write on a property whose setter does not assign back is dropped:
    when the setter only reads (and so does the getter, if any), [p = v]
    enters the setter once and leaves the property exactly as it was. *)
Theorem setter_that_does_not_store_drops_the_write p (fuel : nat) (v : T) setter :
  2 <= fuel ->
  custom_setter p = Some setter ->
  m_SetterActive p = false ->
  reads_only (setter v) ->
  (forall getter, custom_getter p = Some getter -> reads_only getter) ->
  exists l,
    operator_assign fuel v p = Some (tt, p, l) /\ setter_calls l = 1.
Proof.
  intros Hf Es Ea Hs Hg. destruct fuel as [|[|n]]; try lia.
  destruct (@exec_reads n unit (setter v) (set_SetterActive true p))
    as ([] & l & E & Hl); [exact Hg | exact Hs |].
  exists (lock_log (cfg := cfg) ++ EvSetterEnter v :: l ++ [EvSetterLeave]).
  unfold operator_assign, Set_, static_cast, static_cast_same.
  rewrite bind_lock_guard_block, (SetST_dispatch _ _ _ Es Ea).
  change (invoke (S (S n)) (setter v) (set_SetterActive true p))
    with (exec (invoke (S n)) (setter v) (set_SetterActive true p)).
  rewrite E, (SetterGuard_restores _ Ea). split; [reflexivity|].
  rewrite setter_calls_app, setter_calls_lock_log.
  change (setter_calls ([EvSetterEnter v] ++ l ++ [EvSetterLeave]) = 1).
  rewrite !setter_calls_app.
  assert (H0 : setter_calls l = 0).
  { clear E. unfold no_write in Hl. unfold setter_calls.
    induction l as [|e l IH]; [reflexivity|].
    simpl in Hl. apply andb_prop in Hl. destruct Hl as [He Hl].
    destruct e; simpl in *; try discriminate; auto. }
  rewrite H0. reflexivity.
Qed.

End Plain.


Lemma reading_changes_nothing_witness :
  exists r l,
    invoke 2 (Read (fun a => ReadRaw (fun b => Ret (a, b)))) (Person.Address "X") =
      Some (r, Person.Address "X", l) /\
    no_write l = true.
Proof.
  apply (reading_changes_nothing (Person.Address "X")).
  - lia.
  - intros getter E. injection E as <-. intros v. exact I.
  - intros a b. exact I.
Defined.

Lemma setter_that_does_not_store_drops_the_write_witness :
  exists l,
    operator_assign 2 9%Z
      (@Property_setter Z PropertyRWS 5%Z (Some (fun _ : Z => Ret tt))) =
      Some (tt, @Property_setter Z PropertyRWS 5%Z (Some (fun _ : Z => Ret tt)), l) /\
    setter_calls l = 1.
Proof.
  apply (setter_that_does_not_store_drops_the_write
           (@Property_setter Z PropertyRWS 5%Z (Some (fun _ : Z => Ret tt)))
           (fuel := 2) 9%Z (setter := fun _ : Z => Ret tt)).
  - lia.
  - reflexivity.
  - reflexivity.
  - exact I.
  - intros getter E. discriminate E.
Defined.

(** ** [Person::Age] under any code *)

Lemma clamp_range (v : Z) : (0 <= clamp v 0 150 <= 150)%Z.
Proof.
  unfold clamp. destruct (Z.ltb_spec v 0); destruct (Z.ltb_spec 150 v); lia.
Qed.

Lemma Age_Get (run : forall R : Type, Prog Z R -> M Z PropertyRWSMT R) (a : Z) :
  Get run (Person.Age a) = Some (a, Person.Age a, [EvLock; EvUnlock; EvLoad a]).
Proof. reflexivity. Qed.

Lemma Age_Set (n : nat) (a v : Z) :
  Set_ (invoke (S n)) v (Person.Age a) =
  Some (tt, Person.Age (clamp v 0 150),
        [EvLock; EvUnlock; EvSetterEnter v;
         EvLock; EvUnlock; EvStore (clamp v 0 150); EvSetterLeave]).
Proof. reflexivity. Qed.

Lemma Age_ApplyOperation (n : nat) (a : Z) (f : Z -> Z) :
  ApplyOperation (invoke (S n)) f (Person.Age a) =
  Some (tt, Person.Age (clamp (f a) 0 150),
        [EvLock; EvUnlock; EvLoad a; EvSetterEnter (f a);
         EvLock; EvUnlock; EvStore (clamp (f a) 0 150); EvSetterLeave]).
Proof. reflexivity. Qed.

Lemma Age_exec (n : nat) (R : Type) (c : Prog Z R) :
  forall a : Z,
  exists r a' l,
    exec (invoke (S n)) c (Person.Age a) = Some (r, Person.Age a', l) /\
    (a' = a \/ (0 <= a' <= 150)%Z).
Proof.
  pose proof (Age_Set n) as HS. pose proof (Age_ApplyOperation n) as HA.
  remember (@invoke Z PropertyRWSMT (S n)) as run eqn:Hrun. clear Hrun.
  induction c as [r|k IH|k IH|v k IH|f k IH]; intro a; simpl.
  - exists r, a, []. split; [reflexivity | left; reflexivity].
  - destruct (IH a a) as (r & a' & l & E & Ha).
    exists r, a', ([EvLock; EvUnlock; EvLoad a] ++ l).
    unfold bind at 1. rewrite Age_Get. cbv beta iota. rewrite E.
    split; [reflexivity | exact Ha].
  - destruct (IH a a) as (r & a' & l & E & Ha).
    exists r, a', ([EvLock; EvUnlock; EvLoad a] ++ l).
    unfold bind at 1.
    change (GetRaw (Person.Age a))
      with (Some (a, Person.Age a, [EvLock; EvUnlock; @EvLoad Z a])).
    cbv beta iota. rewrite E. split; [reflexivity | exact Ha].
  - destruct (IH (clamp v 0 150)) as (r & a' & l & E & Ha).
    exists r, a'. eexists. unfold bind at 1. rewrite HS. cbv beta iota. rewrite E.
    split; [reflexivity|]. right.
    destruct Ha as [-> | Ha]; [apply clamp_range | exact Ha].
  - destruct (IH (clamp (f a) 0 150)) as (r & a' & l & E & Ha).
    exists r, a'. eexists. unfold bind at 1. rewrite HA. cbv beta iota. rewrite E.
    split; [reflexivity|]. right.
    destruct Ha as [-> | Ha]; [apply clamp_range | exact Ha].
Qed.

(** X4. Whatever sequence of conversions, [GetRaw] calls, assignments,
    compound assignments and increments is run on [Person::Age], the
    property is again a [Person::Age] and its stored age is either the one
    it had or within [0,150]: an age within the range stays within it.
    (The constructor stores its argument as it is; a store through the
    reference that [Age()] returns is not among these operations.) *)
Theorem Age_stays_in_range (fuel : nat) (R : Type) (c : Prog Z R) (a : Z) :
  2 <= fuel ->
  exists r a' l,
    invoke fuel c (Person.Age a) = Some (r, Person.Age a', l) /\
    (a' = a \/ (0 <= a' <= 150)%Z) /\
    ((0 <= a <= 150)%Z -> (0 <= a' <= 150)%Z).
Proof.
  intro Hf. destruct fuel as [|[|n]]; try lia.
  destruct (Age_exec n c a) as (r & a' & l & E & Ha).
  exists r, a', l. split; [exact E|]. split; [exact Ha|].
  intro Hr. destruct Ha as [-> | Ha]; assumption.
Qed.

Lemma Age_stays_in_range_witness :
  exists r a' l,
    invoke 2 (Compound (fun v => add v 100%Z) (Read (fun v => Ret v))) (Person.Age 100) =
      Some (r, Person.Age a', l) /\
    (a' = 100%Z \/ (0 <= a' <= 150)%Z) /\
    ((0 <= 100 <= 150)%Z -> (0 <= a' <= 150)%Z).
Proof.
  apply (Age_stays_in_range (fuel := 2)
           (Compound (fun v => add v 100%Z) (Read (fun v => Ret v))) 100).
  lia.
Defined.

(** X5. Any such code on a [Person::Age] that started within [0,150]
    completes and leaves a [Person::Age] on which every comparison returns
    the comparison of [int] between the stored age and the operand
    converted to [int], and leaves the property exactly as it is, with one load of [m_Value] and no
    store; so [Age <= 150] and [Age >= 0] are true and [Age > 150] and
    [Age < 0] are false. *)
Theorem Age_comparisons_agree_with_the_range
  (fuel : nat) (R : Type) (c : Prog Z R) (a : Z) :
  2 <= fuel -> (0 <= a <= 150)%Z ->
  exists r a' l,
    invoke fuel c (Person.Age a) = Some (r, Person.Age a', l) /\
    (forall (cmp : Comparison) (x : Z),
       operator_compare (cast := int_of_integer) fuel cmp x (Person.Age a') =
         Some (compare_op cmp a' (int_wrap x), Person.Age a',
               [EvLock; EvUnlock; EvLoad a'])) /\
    operator_compare fuel CmpLe 150%Z (Person.Age a') =
      Some (true, Person.Age a', [EvLock; EvUnlock; EvLoad a']) /\
    operator_compare fuel CmpGe 0%Z (Person.Age a') =
      Some (true, Person.Age a', [EvLock; EvUnlock; EvLoad a']) /\
    operator_compare fuel CmpGt 150%Z (Person.Age a') =
      Some (false, Person.Age a', [EvLock; EvUnlock; EvLoad a']) /\
    operator_compare fuel CmpLt 0%Z (Person.Age a') =
      Some (false, Person.Age a', [EvLock; EvUnlock; EvLoad a']).
Proof.
  intros Hf Hr. destruct fuel as [|[|n]]; try lia.
  destruct (Age_exec n c a) as (r & a' & l & E & Ha).
  assert (Hr' : (0 <= a' <= 150)%Z) by (destruct Ha as [-> | Ha]; assumption).
  assert (Hcmp : forall (F : Type) (cast : StaticCast F Z) (cmp : Comparison) (x : F),
             operator_compare (S (S n)) cmp x (Person.Age a') =
               Some (compare_op cmp a' (static_cast x), Person.Age a',
                     [EvLock; EvUnlock; EvLoad a'])).
  { intros F cast cmp x. unfold operator_compare, bind. rewrite Age_Get. reflexivity. }
  exists r, a', l. split; [exact E|].
  split; [intros cmp x; exact (Hcmp Z int_of_integer cmp x)|].
  rewrite !Hcmp. unfold static_cast, static_cast_same. simpl compare_op.
  assert (H1 : (a' <=? 150)%Z = true) by (apply Z.leb_le; lia).
  assert (H2 : (a' >=? 0)%Z = true) by (apply Z.geb_le; lia).
  assert (H3 : (a' >? 150)%Z = false) by (rewrite Z.gtb_ltb; apply Z.ltb_ge; lia).
  assert (H4 : (a' <? 0)%Z = false) by (apply Z.ltb_ge; lia).
  rewrite H1, H2, H3, H4. repeat split.
Qed.

Lemma Age_comparisons_agree_with_the_range_witness :
  exists r a' l,
    invoke 2 (Assign 200%Z (Ret tt)) (Person.Age 0) = Some (r, Person.Age a', l) /\
    (forall (cmp : Comparison) (x : Z),
       operator_compare (cast := int_of_integer) 2 cmp x (Person.Age a') =
         Some (compare_op cmp a' (int_wrap x), Person.Age a',
               [EvLock; EvUnlock; EvLoad a'])) /\
    operator_compare 2 CmpLe 150%Z (Person.Age a') =
      Some (true, Person.Age a', [EvLock; EvUnlock; EvLoad a']) /\
    operator_compare 2 CmpGe 0%Z (Person.Age a') =
      Some (true, Person.Age a', [EvLock; EvUnlock; EvLoad a']) /\
    operator_compare 2 CmpGt 150%Z (Person.Age a') =
      Some (false, Person.Age a', [EvLock; EvUnlock; EvLoad a']) /\
    operator_compare 2 CmpLt 0%Z (Person.Age a') =
      Some (false, Person.Age a', [EvLock; EvUnlock; EvLoad a']).
Proof.
  apply (Age_comparisons_agree_with_the_range (fuel := 2) (Assign 200%Z (Ret tt)) (a := 0));
    lia.
Defined.

(** ** Binary operators *)

Section Binary.

Context {T : Type} {cfg : Config} `{Operators T}.

Implicit Types p : Property T cfg.

Lemma operator_binary_run (fuel : nat) (o : CompoundOp) (x : T) p v p1 lg :
  GetST (invoke fuel) p = Some (v, p1, lg) ->
  operator_binary fuel o x p =
    Some (apply_op o v x, p1, (lock_log (cfg := cfg) ++ lg) ++ []).
Proof.
  intro Eg. unfold operator_binary, Get. unfold bind at 1.
  rewrite bind_lock_guard_block, Eg. reflexivity.
Qed.

(** X6. [p op= x] completes in the same state of the property as
    [p = p op x], for each of the ten operators, whatever the callbacks:
    the same accesses and the same calls of the getter and of the setter,
    in the same order. *)
Theorem compound_is_assignment_of_binary p (o : CompoundOp) (x : T) (fuel : nat) :
  2 <= fuel ->
  exists p' l l',
    operator_compound fuel o x p = Some (tt, p', l) /\
    bind (operator_binary fuel o x) (fun r => operator_assign fuel r) p =
      Some (tt, p', l') /\
    accesses l = accesses l'.
Proof.
  intro Hf.
  destruct (ApplyOperation_run (fun v => apply_op o v x) p Hf)
    as (v & p1 & lg & p2 & ls & Eg & Es & Ea).
  exists p2, (lock_log (cfg := cfg) ++ lg ++ ls),
    (((lock_log (cfg := cfg) ++ lg) ++ []) ++ lock_log (cfg := cfg) ++ ls).
  split; [exact Ea|]. split.
  - unfold bind at 1. rewrite (@operator_binary_run fuel o x p v p1 lg Eg).
    unfold operator_assign, Set_, static_cast, static_cast_same.
    rewrite bind_lock_guard_block, Es. reflexivity.
  - rewrite !accesses_app, !accesses_lock_log, app_nil_r. reflexivity.
Qed.

End Binary.

Lemma compound_is_assignment_of_binary_witness :
  exists p' l l',
    operator_compound 2 MulAssign 3%Z (Person.Age 40) = Some (tt, p', l) /\
    bind (operator_binary 2 MulAssign 3%Z) (fun r => operator_assign 2 r) (Person.Age 40) =
      Some (tt, p', l') /\
    accesses l = accesses l'.
Proof.
  apply (compound_is_assignment_of_binary (Person.Age 40) MulAssign 3%Z (fuel := 2)).
  lia.
Defined.

(** ** Copies of a [Person] *)

(** X7. The copy constructor of [Person] leaves the original as it is and
    builds a person in the same state, whatever the name, the age and the
    stored address: the address is copied with [GetRaw], so the copy stores
    it without the country, and a read of the address of the copy returns
    it with the country appended once, as a read of the original does. *)
Theorem copy_of_a_person_is_the_person (fuel : nat) (name : string) (age : Z)
  (address : string) :
  PersonClass.copy_ctor fuel
    (PersonClass.mk (Person.Name name) (Person.Age age) (Person.Address address)) =
    Some (PersonClass.mk (Person.Name name) (Person.Age age) (Person.Address address),
          PersonClass.mk (Person.Name name) (Person.Age age) (Person.Address address)) /\
  outcome (operator_T (S fuel) (Person.Address address)) =
    Some ((address ++ Person.predefinedCountry)%string, Person.Address address).
Proof.
  split; reflexivity.
Qed.
